(** * makani: step wrappers, spectral operators and the visualization wrapper

  A shallow embedding of
    - [makani/models/stepper.py]  (SingleStepWrapper, MultiStepWrapper),
    - [makani/models/common/spectral_convolution.py]
      (SpectralConv, SpectralAttention),
    - [makani/utils/visualize.py] (VisualizationWrapper),
  together with the properties of these components.

  Python integers are [Z]; [//] and [%] are [Z.div] and [Z.modulo], which
  round towards minus infinity as Python does. *)

From Stdlib Require Import ZArith List Bool Lia.
From Stdlib Require String Ascii OrdersEx.
From Stdlib Require Reals QArith Qreals Lra.
From Stdlib Require Import Permutation Sorted RelationClasses.
Import ListNotations.

Local Open Scope Z_scope.

(** ** Python's [range] *)

Definition range (n : Z) : list Z := map Z.of_nat (seq 0 (Z.to_nat n)).

(** ** Field tensors and [torch.cat(..., dim=1)]

  A field tensor has layout [batch, channel, lat, lon].  The wrappers only
  look at the channel axis, so a tensor is its three other extents and the
  list of its channels; [Slab] is the content of one channel. *)

Module Torch.

Section Tensors.

Variable Slab : Type.

Record Tensor : Type := mkTensor {
  batch : Z;
  nlat : Z;
  nlon : Z;
  channels : list Slab
}.

Definition same_extents (a b : Tensor) : bool :=
  (batch a =? batch b) && (nlat a =? nlat b) && (nlon a =? nlon b).

(** Concatenating two tensors along dimension 1: all other dimensions have
    to agree, otherwise torch raises. *)
Definition cat2 (acc : option Tensor) (b : Tensor) : option Tensor :=
  match acc with
  | None => None
  | Some a =>
      if same_extents a b
      then Some (mkTensor (batch a) (nlat a) (nlon a) (channels a ++ channels b))
      else None
  end.

(** [torch.cat(ts, dim=1)]; an empty list of tensors is an error. *)
Definition cat_dim1 (ts : list Tensor) : option Tensor :=
  match ts with
  | [] => None
  | t :: rest => fold_left cat2 rest (Some t)
  end.

(** [x.detach()] shares the values of [x]; only the autograd graph, which
    is not part of a tensor's value, is cut. *)
Definition detach (x : Tensor) : Tensor := x.

End Tensors.

Arguments mkTensor {Slab}.
Arguments batch {Slab}.
Arguments nlat {Slab}.
Arguments nlon {Slab}.
Arguments channels {Slab}.
Arguments cat2 {Slab}.
Arguments cat_dim1 {Slab}.
Arguments detach {Slab}.
Arguments same_extents {Slab}.

End Torch.

(** ** The step wrappers ([stepper.py]) *)

Module Stepper.

Import Torch.

(** The calls a wrapper makes to its collaborators, in the order made. *)
Inductive Call : Type :=
| CUpdateInternalState (replace_state : bool)
| CAppendUnpredictedFeatures
| CHistoryComputeStats
| CHistoryNormalize (target : bool)
| CAddStaticFeatures
| CModel
| CCorrectBias
| CHistoryDenormalize (target : bool)
| CAddResidual
| CAppendHistory (step : Z)
| CDetach.

Definition Call_eqb (a b : Call) : bool :=
match a, b with
| CUpdateInternalState x, CUpdateInternalState y => Bool.eqb x y
| CAppendUnpredictedFeatures, CAppendUnpredictedFeatures => true
| CHistoryComputeStats, CHistoryComputeStats => true
| CHistoryNormalize x, CHistoryNormalize y => Bool.eqb x y
| CAddStaticFeatures, CAddStaticFeatures => true
| CModel, CModel => true
| CCorrectBias, CCorrectBias => true
| CHistoryDenormalize x, CHistoryDenormalize y => Bool.eqb x y
| CAddResidual, CAddResidual => true
| CAppendHistory x, CAppendHistory y => Z.eqb x y
| CDetach, CDetach => true
| _, _ => false
end.

Definition is_reset (c : Call) : bool := Call_eqb c (CUpdateInternalState true).
Definition is_advance (c : Call) : bool := Call_eqb c (CUpdateInternalState false).
Definition is_detach (c : Call) : bool := Call_eqb c CDetach.

Definition count (p : Call -> bool) (l : list Call) : nat :=
List.length (filter p l).

Section Wrappers.

Variable Slab : Type.
Abbreviation T := (Tensor Slab).

(** [Preprocessor2D] lives in [makani.models.preprocessor]; the wrappers
    use it through its methods only.  Every method may read and mutate the
    preprocessor object, so each one is a transformer of its state. *)
Variable PState : Type.

Record Preprocessor : Type := {
  pp_update_internal_state : bool -> PState -> PState;
  pp_append_unpredicted_features : T -> PState -> T * PState;
  pp_history_compute_stats : T -> PState -> PState;
  pp_history_normalize : T -> bool -> PState -> T * PState;
  pp_add_static_features : T -> PState -> T * PState;
  pp_correct_bias : T -> PState -> T * PState;
  pp_history_denormalize : T -> bool -> PState -> T * PState;
  pp_add_residual : T -> T -> PState -> T * PState;
  pp_append_history : T -> T -> Z -> PState -> T * PState
}.

(** The wrapped model is an [nn.Module]: a call may change its own state
    (buffers, random number generator). *)
Variable MState : Type.

Variable pp : Preprocessor.
Variable net : T -> MState -> T * MState.

(** What a wrapper's [forward] runs in: the preprocessor object, the model
    object and the record of collaborator calls made so far. *)
Record World : Type := mkWorld {
  pre : PState;
  mdl : MState;
  calls : list Call
}.

Definition M (A : Type) : Type := World -> A * World.

Definition ret {A} (a : A) : M A := fun w => (a, w).

Definition bind {A B} (m : M A) (k : A -> M B) : M B :=
  fun w => let (a, w') := m w in k a w'.

Notation "x <- m ;; k" := (bind m (fun x => k))
  (at level 61, m at next level, right associativity).
Notation "m ;;; k" := (bind m (fun _ => k))
  (at level 61, right associativity).

Definition emit (c : Call) (w : World) : World :=
  mkWorld (pre w) (mdl w) (calls w ++ [c]).

Definition on_pre {A} (c : Call) (f : PState -> A * PState) : M A :=
  fun w => let (a, p) := f (pre w) in
           (a, mkWorld p (mdl w) (calls w ++ [c])).

Definition update_internal_state (replace_state : bool) : M unit :=
  on_pre (CUpdateInternalState replace_state)
         (fun p => (tt, pp_update_internal_state pp replace_state p)).

Definition append_unpredicted_features (x : T) : M T :=
  on_pre CAppendUnpredictedFeatures (pp_append_unpredicted_features pp x).

Definition history_compute_stats (x : T) : M unit :=
  on_pre CHistoryComputeStats
         (fun p => (tt, pp_history_compute_stats pp x p)).

Definition history_normalize (x : T) (target : bool) : M T :=
  on_pre (CHistoryNormalize target) (pp_history_normalize pp x target).

Definition add_static_features (x : T) : M T :=
  on_pre CAddStaticFeatures (pp_add_static_features pp x).

Definition correct_bias (x : T) : M T :=
  on_pre CCorrectBias (pp_correct_bias pp x).

Definition history_denormalize (x : T) (target : bool) : M T :=
  on_pre (CHistoryDenormalize target) (pp_history_denormalize pp x target).

Definition add_residual (x y : T) : M T :=
  on_pre CAddResidual (pp_add_residual pp x y).

Definition append_history (x y : T) (step : Z) : M T :=
  on_pre (CAppendHistory step) (pp_append_history pp x y step).

Definition model (x : T) : M T :=
  fun w => let (y, s) := net x (mdl w) in
           (y, mkWorld (pre w) s (calls w ++ [CModel])).

Definition tensor_detach (x : T) : M T :=
  fun w => (detach x, emit CDetach w).

(** *** SingleStepWrapper.forward *)

Definition SingleStepWrapper_forward (inp : T) (replace_state : bool) : M T :=
  update_internal_state replace_state ;;;
  inpa <- append_unpredicted_features inp ;;
  history_compute_stats inpa ;;;
  inpan <- history_normalize inpa false ;;
  inpans <- add_static_features inpan ;;
  yn <- model inpans ;;
  yn <- correct_bias yn ;;
  y <- history_denormalize yn true ;;
  y <- add_residual inp y ;;
  ret y.

(** *** MultiStepWrapper *)

Record MultiStepWrapper : Type := {
  residual_mode : bool;
  push_forward_mode : bool;
  n_future : Z;
  training : bool
}.

Variable self : MultiStepWrapper.

(** Lines 78-104 of [_forward_train]: one pass of the loop body up to the
    prediction [pred]; it returns the (possibly detached) input, which the
    rest of the body uses, and the prediction. *)
Definition rollout_step (inpt : T) : M (T * T) :=
  inpt <- (if push_forward_mode self then tensor_detach inpt else ret inpt) ;;
  inpa <- append_unpredicted_features inpt ;;
  history_compute_stats inpa ;;;
  inpan <- history_normalize inpa false ;;
  inpans <- add_static_features inpan ;;
  predn <- model inpans ;;
  predn <- correct_bias predn ;;
  pred <- history_denormalize predn true ;;
  pred <- add_residual inpt pred ;;
  ret (inpt, pred).

(** Lines 112-116: what follows the [break] test. *)
Definition rollout_advance (inpt pred : T) (step : Z) : M T :=
  update_internal_state false ;;;
  append_history inpt pred step.

(** The [for step in range(self.n_future + 1)] loop with its [break]. *)
Fixpoint rollout (steps : list Z) (inpt : T) (result : list T)
  : M (list T) :=
  match steps with
  | [] => ret result
  | step :: rest =>
      ip <- rollout_step inpt ;;
      let result := result ++ [snd ip] in
      if step =? n_future self then ret result
      else
        inpt <- rollout_advance (fst ip) (snd ip) step ;;
        rollout rest inpt result
  end.

Definition _forward_train (inp : T) : M (option T) :=
  update_internal_state true ;;;
  result <- rollout (range (n_future self + 1)) inp [] ;;
  ret (cat_dim1 result).

Definition _forward_eval (inp : T) : M T :=
  update_internal_state true ;;;
  inpa <- append_unpredicted_features inp ;;
  history_compute_stats inpa ;;;
  inpan <- history_normalize inpa false ;;
  inpans <- add_static_features inpan ;;
  yn <- model inpans ;;
  yn <- correct_bias yn ;;
  y <- history_denormalize yn true ;;
  y <- add_residual inp y ;;
  ret y.

(** [forward] returns a tensor in both modes; in training mode the final
    [torch.cat] may raise, hence the option. *)
Definition MultiStepWrapper_forward (inp : T) : M (option T) :=
  if training self then _forward_train inp
  else y <- _forward_eval inp ;; ret (Some y).

(** [emits m tr]: whatever the world, running [m] adds exactly the calls
    [tr], in this order, to the record of calls. *)
Definition emits {A} (m : M A) (tr : list Call) : Prop :=
  forall w : World, calls (snd (m w)) = calls w ++ tr.

(** Two worlds agree when the preprocessor and the model are in the same
    state; [simulates R m m'] when, from worlds that agree, [m] and [m'] end
    in worlds that agree, with results related by [R]. *)
Definition agree (w w' : World) : Prop :=
  pre w = pre w' /\ mdl w = mdl w'.

Definition simulates {A B} (R : A -> B -> Prop) (m : M A) (m' : M B) : Prop :=
  forall w w', agree w w' ->
    R (fst (m w)) (fst (m' w')) /\ agree (snd (m w)) (snd (m' w')).

(** *** The rollout as the state machine of the design

    A configuration is the input tensor entering a step together with the
    world at that point.  [step_over c i] runs Step(i) from [c] and advances
    to the configuration entering Step(i+1); [entry_from c lo k] is the
    configuration reached from [c], which enters Step(lo), after [k] steps. *)

Definition step_over (c : T * World) (i : nat) : T * World :=
  let (ip, w1) := rollout_step (fst c) (snd c) in
  rollout_advance (fst ip) (snd ip) (Z.of_nat i) w1.

Fixpoint entry_from (c : T * World) (lo k : nat) : T * World :=
  match k with
  | O => c
  | S k' => entry_from (step_over c lo) (S lo) k'
  end.

(** The prediction produced by the step entered in configuration [c]. *)
Definition prediction_at (c : T * World) : T :=
  snd (fst (rollout_step (fst c) (snd c))).

(** The prediction of Step(i) of the rollout started on [inp] in [w]. *)
Definition step_prediction (inp : T) (w : World) (i : nat) : T :=
  prediction_at (entry_from (inp, snd (update_internal_state true w)) 0 i).

(** The collaborator calls of one step, up to its prediction. *)
Definition step_calls : list Call :=
  (if push_forward_mode self then [CDetach] else []) ++
  [CAppendUnpredictedFeatures; CHistoryComputeStats; CHistoryNormalize false;
   CAddStaticFeatures; CModel; CCorrectBias; CHistoryDenormalize true;
   CAddResidual].

(** The calls of a non-terminal step, including the advance after it. *)
Definition advancing_step_calls (step : Z) : list Call :=
  step_calls ++ [CUpdateInternalState false; CAppendHistory step].

(** The calls of one training rollout: the reset, the non-terminal steps
    [0 .. n_future - 1] with their advances, then the terminal step. *)
Definition train_calls : list Call :=
  [CUpdateInternalState true]
  ++ concat (map advancing_step_calls (range (n_future self)))
  ++ step_calls.

(** The calls of the single pass made in evaluation mode. *)
Definition eval_calls : list Call :=
  [CUpdateInternalState true; CAppendUnpredictedFeatures;
   CHistoryComputeStats; CHistoryNormalize false; CAddStaticFeatures;
   CModel; CCorrectBias; CHistoryDenormalize true; CAddResidual].

End Wrappers.

Arguments mkWorld {PState MState}.
Arguments pre {PState MState}.
Arguments mdl {PState MState}.
Arguments calls {PState MState}.

(** *** A small preprocessor and model to run the wrappers on

    The state is the list of tensors seen by [history_compute_stats] and
    [append_history]; the model doubles the channels of its input. *)

Definition toy_pp : Preprocessor Z (list (Tensor Z)) := {|
  pp_update_internal_state := fun r h => if r then [] else h;
  pp_append_unpredicted_features := fun x h => (x, h);
  pp_history_compute_stats := fun x h => x :: h;
  pp_history_normalize := fun x _ h => (x, h);
  pp_add_static_features := fun x h => (x, h);
  pp_correct_bias := fun x h => (x, h);
  pp_history_denormalize := fun x _ h => (x, h);
  pp_add_residual := fun x y h => (y, h);
  pp_append_history := fun x y _ h => (y, y :: h)
|}.

Definition toy_net (x : Tensor Z) (n : nat) : Tensor Z * nat :=
  (mkTensor (batch x) (nlat x) (nlon x) (map (fun v => 2 * v) (channels x)), S n).

Definition toy_input : Tensor Z := mkTensor 1 2 4 [3; 5].

Definition toy_world : World (list (Tensor Z)) nat := mkWorld [toy_input] O [].

Definition toy_wrapper (n : Z) (push train : bool) : MultiStepWrapper :=
  {| residual_mode := false; push_forward_mode := push;
     n_future := n; training := train |}.

(** *** Further observations on the record of calls *)

Definition is_model (c : Call) : bool := Call_eqb c CModel.

Definition is_append_history (c : Call) : bool :=
  match c with
  | CAppendHistory _ => true
  | _ => false
  end.

(** *** MultiStepWrapper.__init__

    The parameters the constructor reads: [params.target],
    [params.get("multistep_push_forward", False)] and [params.n_future];
    a missing key of [get] is [None]. *)

Import String.

Record Params : Type := {
  p_target : String.string;
  p_multistep_push_forward : option bool;
  p_n_future : Z
}.

(** The attributes of a fresh wrapper; an [nn.Module] is created in
    training mode. *)
Definition MultiStepWrapper_init (params : Params) : MultiStepWrapper :=
  {| residual_mode := if String.eqb (p_target params) "target"%string then true else false;
     push_forward_mode :=
       match p_multistep_push_forward params with
       | Some b => b
       | None => false
       end;
     n_future := p_n_future params;
     training := true |}.

(** [module.eval()] and [module.train()] *)
Definition set_training (self : MultiStepWrapper) (mode : bool) : MultiStepWrapper :=
  {| residual_mode := residual_mode self;
     push_forward_mode := push_forward_mode self;
     n_future := n_future self;
     training := mode |}.

End Stepper.

(** ** The visualization wrapper ([visualize.py]) *)

Module Visualize.

Import String.
Local Open Scope string_scope.

(** Python compares [str] values code point by code point; on the bytes of
    a [string] this is the lexicographic order of [String_as_OT]. *)
Definition str_ltb (a b : string) : bool :=
  match OrdersEx.String_as_OT.compare a b with
  | Lt => true
  | _ => false
  end.

Definition key_lt (a b : string) : Prop := str_ltb a b = true.

(** *** [dict] and [sorted]

    A [dict] keeps its keys in insertion order; assigning to a key that is
    present replaces the value and leaves the position. *)

Section Dict.

Variable V : Type.

Fixpoint dict_set (d : list (string * V)) (k : string) (v : V)
  : list (string * V) :=
  match d with
  | [] => [(k, v)]
  | (k', v') :: rest =>
      if String.eqb k' k then (k, v) :: rest
      else (k', v') :: dict_set rest k v
  end.

(** [sorted(d.items())]: the keys of a dict are distinct, so the tuples are
    ordered by their first component alone and the values are never
    compared.  The sort is stable; it is written as an insertion sort. *)
Fixpoint insert_item (x : string * V) (l : list (string * V))
  : list (string * V) :=
  match l with
  | [] => [x]
  | y :: rest =>
      if str_ltb (fst x) (fst y) then x :: y :: rest
      else y :: insert_item x rest
  end.

Fixpoint sorted_items (l : list (string * V)) : list (string * V) :=
  match l with
  | [] => []
  | x :: rest => insert_item x (sorted_items rest)
  end.

(** Items in strictly ascending, and in ascending, order of their keys. *)
Definition item_lt (x y : string * V) : Prop := key_lt (fst x) (fst y).
Definition item_le (x y : string * V) : Prop := str_ltb (fst y) (fst x) = false.

End Dict.

Arguments item_lt {V}.
Arguments item_le {V}.
Arguments dict_set {V}.
Arguments insert_item {V}.
Arguments sorted_items {V}.

Section Wrapper.

(** numpy arrays, the grid coordinates, PIL images and the frames made of
    them are data of the plotting libraries. *)
Variables Array Coord Image Frame : Type.

Record PlotItem : Type := {
  item_name : string;
  item_functor : string;
  item_diverging : bool
}.

(** The arguments of one [executor.submit(visualize_field, ...)]. *)
Record Job : Type := {
  job_tag : string * string;
  job_func_string : string;
  job_prediction : Array;
  job_target : Array;
  job_lat : option Coord;
  job_lon : option Coord;
  job_scale : Array;
  job_bias : Array;
  job_diverging : bool
}.

(** The image [visualize_field] draws for a job (functor evaluation and
    [plot_comparison]); it depends on the job's arguments only. *)
Variable draw : Job -> Image.

Definition visualize_field (j : Job) : (string * string) * Image :=
  (job_tag j, draw j).

Variable asarray : Image -> Frame.
Variable transpose_201 : Frame -> Frame.

Record VisualizationWrapper : Type := {
  log_to_wandb : bool;
  generate_video : bool;
  path : string;
  prefix : string;
  plot_list : list PlotItem;
  lat : option Coord;
  lon : option Coord;
  scale : Array;
  bias : Array;
  requests : list Job
}.

Definition VisualizationWrapper_init (log_to_wandb : bool) (path prefix : string)
    (plot_list : list PlotItem) (lat lon : option Coord) (scale bias : Array)
  : VisualizationWrapper :=
  {| log_to_wandb := log_to_wandb; generate_video := true;
     path := path; prefix := prefix; plot_list := plot_list;
     lat := lat; lon := lon; scale := scale; bias := bias;
     requests := [] |}.

Definition set_requests (self : VisualizationWrapper) (r : list Job)
  : VisualizationWrapper :=
  {| log_to_wandb := log_to_wandb self; generate_video := generate_video self;
     path := path self; prefix := prefix self; plot_list := plot_list self;
     lat := lat self; lon := lon self; scale := scale self; bias := bias self;
     requests := r |}.

Definition reset (self : VisualizationWrapper) : VisualizationWrapper :=
  set_requests self [].

Definition submit (self : VisualizationWrapper) (tag : string)
    (prediction target : Array) (item : PlotItem) : Job :=
  {| job_tag := (tag, item_name item);
     job_func_string := item_functor item;
     job_prediction := prediction; job_target := target;
     job_lat := lat self; job_lon := lon self;
     job_scale := scale self; job_bias := bias self;
     job_diverging := item_diverging item |}.

Definition add (self : VisualizationWrapper) (tag : string)
    (prediction target : Array) : VisualizationWrapper :=
  set_requests self
    (requests self ++ map (submit self tag prediction target) (plot_list self)).

(** The key under which [finalize] files the result of a job. *)
Definition result_prefix (token : string * string) : string :=
  let (tag, field_name) := token in
  field_name ++ "_" ++ tag.

(** The first loop of [finalize]: [completed] is [self.requests] in the
    order in which [as_completed] hands the futures over. *)
Definition collect (completed : list Job) : list (string * Image) :=
  fold_left
    (fun results request =>
       let (token, image) := visualize_field request in
       dict_set results (result_prefix token) image)
    completed [].

(** What [finalize] hands to the video encoder or to the logger. *)
Inductive Output : Type :=
| Video (frames : list Frame)
| Images (captioned : list (Image * string)).

Definition finalize (self : VisualizationWrapper) (completed : list Job)
  : Output * VisualizationWrapper :=
  let results := collect completed in
  let out :=
    if generate_video self then
      if log_to_wandb self then
        Video (map (fun pi => transpose_201 (asarray (snd pi)))
                   (sorted_items results))
      else
        Video (map (fun pi => asarray (snd pi)) (sorted_items results))
    else
      Images (map (fun pi => (snd pi, fst pi)) results)
  in
  (out, reset self).

(** A sequence of [add] calls on a freshly constructed wrapper. *)
Definition add_all (self : VisualizationWrapper)
    (adds : list (string * Array * Array)) : VisualizationWrapper :=
  fold_left (fun s a => add s (fst (fst a)) (snd (fst a)) (snd a)) adds self.

Definition job_prefix (j : Job) : string := result_prefix (job_tag j).

Definition job_item (j : Job) : string * Image := (job_prefix j, draw j).

End Wrapper.

(** *** Example wrappers

    Arrays are numbers and the image of a job records the job's token and
    prediction, so that different jobs give different images. *)

Definition ex_draw (j : Job nat unit) : (string * string) * nat :=
  (job_tag nat unit j, job_prediction nat unit j).

Definition ex_item (name : string) : PlotItem :=
  {| item_name := name; item_functor := "lambda x: x"; item_diverging := false |}.

Definition ex_wrapper (names : list string) : VisualizationWrapper nat unit :=
  VisualizationWrapper_init nat unit false "out" "viz" (map ex_item names)
    None None 1%nat 0%nat.

(** Two fields and two tags, all four keys different. *)
Definition ex_distinct : VisualizationWrapper nat unit :=
  add_all nat unit (ex_wrapper ["u10m"; "t2m"])
    [("000", 1%nat, 1%nat); ("001", 2%nat, 2%nat)].

(** Two fields and two tags whose pairs are different but whose
    concatenations with ["_"] coincide for two of them. *)
Definition ex_colliding : VisualizationWrapper nat unit :=
  add_all nat unit (ex_wrapper ["a"; "a_b"])
    [("b_c", 1%nat, 1%nat); ("c", 2%nat, 2%nat)].

(** *** Reading a [dict] and looking into strings *)

(** [d.get(k)] *)
Fixpoint dict_get {V} (d : list (string * V)) (k : string) : option V :=
  match d with
  | [] => None
  | (k', v) :: rest => if String.eqb k' k then Some v else dict_get rest k
  end.

(** [c in s] for a character [c] *)
Fixpoint contains (c : Ascii.ascii) (s : string) : bool :=
  match s with
  | EmptyString => false
  | String c' s' => Ascii.eqb c' c || contains c s'
  end.

(** *** plot_rollout_metrics

    The calls to matplotlib are recorded in the order made; what they draw
    is outside.  Time steps and tick positions are integers, as with the
    default [dtxdh=6]. *)

Inductive PlotCall (Value : Type) : Type :=
| Subplots
| Plot (t : list Z) (curve : list Value) (fmt : string)
| XMajorLocator (ticks : list Z)
| YMajorLocator (nbins : Z)
| Grid
| Legend
| XLabel (label : string)
| YLabel (label : string)
| RotateXTickLabels
| SaveFig (file : string).

Arguments Subplots {Value}.
Arguments Plot {Value}.
Arguments XMajorLocator {Value}.
Arguments YMajorLocator {Value}.
Arguments Grid {Value}.
Arguments Legend {Value}.
Arguments XLabel {Value}.
Arguments YLabel {Value}.
Arguments RotateXTickLabels {Value}.
Arguments SaveFig {Value}.

(** [np.arange(start, stop, 1)] on integers *)
Definition arange (start stop : Z) : list Z :=
  map (fun i => (start + Z.of_nat i)%Z) (seq 0 (Z.to_nat (stop - start))).

Definition times (dtxdh : Z) (l : list Z) : list Z :=
  map (fun i => (i * dtxdh)%Z) l.

Section Metrics.

Variable Value : Type.

(** [os.path.join] *)
Variable path_join : string -> string -> string.

(** The body of the loop for one variable, after [metric_curves[ivar]]. *)
Definition plot_one_metric (metric_curve : list Value) (var_name : string)
    (score_path : option string) (file_prefix : string) (dtxdh : Z)
  : list (PlotCall Value) :=
  let n := Z.of_nat (List.length metric_curve) in
  let t := times dtxdh (arange 1 (n + 1)) in
  let xticks := times dtxdh (arange 0 (n + 1)) in
  [Subplots; Plot t metric_curve ".-"; XMajorLocator xticks;
   YMajorLocator 20; Grid; Legend; XLabel "Time [h]";
   YLabel (file_prefix ++ " " ++ var_name); RotateXTickLabels]
  ++ match score_path with
     | Some dir =>
         [SaveFig (path_join dir (file_prefix ++ "_" ++ var_name ++ ".png"))]
     | None => []
     end.

(** [for ivar, var_name in enumerate(var_names)], from index [ivar] on; the
    boolean tells whether [metric_curves[ivar]] raised [IndexError]. *)
Fixpoint plot_metrics_from (ivar : nat) (metric_curves : list (list Value))
    (var_names : list string) (score_path : option string)
    (file_prefix : string) (dtxdh : Z) (done : list (PlotCall Value))
  : list (PlotCall Value) * bool :=
  match var_names with
  | [] => (done, false)
  | var_name :: rest =>
      match nth_error metric_curves ivar with
      | None => (done, true)
      | Some metric_curve =>
          plot_metrics_from (S ivar) metric_curves rest score_path
            file_prefix dtxdh
            (done ++ plot_one_metric metric_curve var_name score_path
                       file_prefix dtxdh)
      end
  end.

Definition plot_rollout_metrics (metric_curves : list (list Value))
    (var_names : list string) (score_path : option string)
    (file_prefix : string) (dtxdh : Z) : list (PlotCall Value) * bool :=
  plot_metrics_from 0 metric_curves var_names score_path file_prefix dtxdh [].

(** The files written and the figures opened by a run. *)
Definition saved_files (l : list (PlotCall Value)) : list string :=
  flat_map (fun c => match c with SaveFig f => [f] | _ => [] end) l.

Definition figures (l : list (PlotCall Value)) : nat :=
  List.length (filter (fun c => match c with Subplots => true | _ => false end) l).

Definition plotted (l : list (PlotCall Value)) : list (list Z * list Value) :=
  flat_map (fun c => match c with Plot t c _ => [(t, c)] | _ => [] end) l.

Definition x_ticks (l : list (PlotCall Value)) : list (list Z) :=
  flat_map (fun c => match c with XMajorLocator t => [t] | _ => [] end) l.

Definition metric_file (dir file_prefix var_name : string) : string :=
  path_join dir (file_prefix ++ "_" ++ var_name ++ ".png").

(** The files of the given variables, when a score path is given. *)
Definition files_of (score_path : option string) (file_prefix : string)
    (names : list string) : list string :=
  match score_path with
  | Some dir => map (metric_file dir file_prefix) names
  | None => []
  end.

End Metrics.

(** A path join for the examples. *)
Definition ex_path_join (dir file : string) : string := dir ++ "/" ++ file.

End Visualize.

(** ** The spectral operators ([spectral_convolution.py]) *)

Module Spectral.

Import String.
Import QArith Reals.
Local Open Scope string_scope.
Local Open Scope list_scope.
Local Open Scope Z_scope.

(** *** Exceptions *)

Inductive PyError : Type :=
| AssertionError (line : Z)
| ZeroDivisionError
| ValueError
| IndexError
| AttributeError
| NameError
| RuntimeError.

Definition result (A : Type) : Type := (PyError + A)%type.

Definition raise {A} (e : PyError) : result A := inl e.
Definition ok {A} (a : A) : result A := inr a.

Definition and_then {A B} (r : result A) (k : A -> result B) : result B :=
  match r with
  | inl e => inl e
  | inr a => k a
  end.

Notation "x <- r ;; k" := (and_then r (fun x => k))
  (at level 61, r at next level, right associativity).
Notation "r ;;; k" := (and_then r (fun _ => k))
  (at level 61, right associativity).

(** [assert c], at the given source line. *)
Definition assert (line : Z) (c : bool) : result unit :=
  if c then ok tt else raise (AssertionError line).

(** [a % b == 0] *)
Definition mod_is_zero (a b : Z) : result bool :=
  if b =? 0 then raise ZeroDivisionError else ok (a mod b =? 0).

(** [l[i]] for a rank [i >= 0]. *)
Definition getitem (l : list Z) (i : nat) : result Z :=
  match nth_error l i with
  | Some v => ok v
  | None => raise IndexError
  end.

(** *** Complex tensors with values

    The entries of the weight are modelled in exact arithmetic: a complex
    number is a pair of reals.  A tensor is its shape and its entry at each
    multi-index. *)

Definition C : Type := (R * R)%type.

Definition Cmul (a b : C) : C :=
  (fst a * fst b - snd a * snd b, fst a * snd b + snd a * fst b)%R.

(** A Python float times a complex number. *)
Definition RCmul (s : R) (z : C) : C := (s * fst z, s * snd z)%R.

Definition Cnorm2 (z : C) : R := (fst z * fst z + snd z * snd z)%R.

Record NDArray : Type := mkND {
  nd_shape : list Z;
  nd_at : list Z -> C
}.

Definition valid_shape (s : list Z) : bool := forallb (fun d => 0 <=? d) s.

(** [torch.ones(n, dtype=torch.complex64)] *)
Definition torch_ones (n : Z) : result NDArray :=
  if n <? 0 then raise RuntimeError
  else ok (mkND [n] (fun _ => (1%R, 0%R))).

(** [s * t] for a Python float [s]. *)
Definition scalar_mul (s : R) (t : NDArray) : NDArray :=
  mkND (nd_shape t) (fun idx => RCmul s (nd_at t idx)).

(** [t[0] *= s]: index 0 along the first axis has to exist. *)
Definition imul_at_0 (t : NDArray) (s : R) : result NDArray :=
  match nd_shape t with
  | [] => raise IndexError
  | d :: _ =>
      if d <=? 0 then raise IndexError
      else ok (mkND (nd_shape t)
                 (fun idx =>
                    match idx with
                    | 0 :: _ => RCmul s (nd_at t idx)
                    | _ => nd_at t idx
                    end))
  end.

(** [torch.randn( *shape, dtype=torch.complex64)]; [noise] is the draw of
    the random number generator. *)
Definition torch_randn (noise : list Z -> C) (shape : list Z) : result NDArray :=
  if valid_shape shape then ok (mkND shape noise) else raise RuntimeError.

(** Broadcasting of two shapes, aligned at their last dimensions; the lists
    are given last dimension first. *)
Fixpoint broadcast_rev (a b : list Z) : option (list Z) :=
  match a, b with
  | [], _ => Some b
  | _, [] => Some a
  | x :: a', y :: b' =>
      match broadcast_rev a' b' with
      | None => None
      | Some r =>
          if x =? y then Some (x :: r)
          else if x =? 1 then Some (y :: r)
          else if y =? 1 then Some (x :: r)
          else None
      end
  end.

Definition broadcast_shapes (a b : list Z) : option (list Z) :=
  option_map (@rev Z) (broadcast_rev (rev a) (rev b)).

(** The index into an operand of shape [s] that the index [idx] of the
    broadcast result reads: the last [length s] coordinates, with 0 along
    the axes of extent 1. *)
Fixpoint zip_index (s idx : list Z) : list Z :=
  match s, idx with
  | d :: s', i :: idx' => (if d =? 1 then 0 else i) :: zip_index s' idx'
  | _, _ => []
  end.

Definition operand_index (s idx : list Z) : list Z :=
  zip_index s (skipn (List.length idx - List.length s) idx).

(** [a * b] on tensors. *)
Definition torch_mul (a b : NDArray) : result NDArray :=
  match broadcast_shapes (nd_shape a) (nd_shape b) with
  | None => raise RuntimeError
  | Some s =>
      ok (mkND s (fun idx =>
                    Cmul (nd_at a (operand_index (nd_shape a) idx))
                         (nd_at b (operand_index (nd_shape b) idx))))
  end.

(** *** The operators

    Activations are torch tensors, known to the operators through their
    dtype and shape only; the transforms, [reshape] and the contraction may
    raise. *)

Section Operators.

Variables Tensor DType : Type.
Variable float32 : DType.
Variable dtype_of : Tensor -> DType.
Variable to_dtype : Tensor -> DType -> Tensor.
Variable contiguous : Tensor -> Tensor.
Variable shape_of : Tensor -> list Z.
Variable reshape : Tensor -> list Z -> result Tensor.
Variable add_bias : Tensor -> NDArray -> Tensor.

(** The per-rank shapes of a [thd.DistributedInverseRealSHT]. *)
Record DistShapes : Type := {
  l_shapes : list Z;
  m_shapes : list Z;
  lat_shapes : list Z;
  lon_shapes : list Z
}.

(** A forward or inverse transform object.  [t_grid] is [None] when the
    object has no attribute [grid]; [t_distributed] is [Some] exactly for
    instances of [thd.DistributedInverseRealSHT]. *)
Record Transform : Type := {
  t_call : Tensor -> result Tensor;
  t_nlat : Z;
  t_nlon : Z;
  t_lmax : Z;
  t_mmax : Z;
  t_grid : option string;
  t_distributed : option DistShapes
}.

(** [comm.get_rank("h")] and [comm.get_rank("w")] *)
Variables rank_h rank_w : nat.

Definition ContractFun : Type :=
  Tensor -> NDArray -> bool -> string -> result Tensor.

(** [get_contract_fun(weight, implementation="factorized", separable=...,
    complex=True, operator_type=...)] of [makani.models.common.factorizations] *)
Variable get_contract_fun : NDArray -> bool -> string -> result ContractFun.

(** **** SpectralConv *)

Record SpectralConv : Type := {
  forward_transform : Transform;
  inverse_transform : Transform;
  in_channels : Z;
  out_channels : Z;
  num_groups : Z;
  modes_lat : Z;
  modes_lon : Z;
  scale_residual : bool;
  operator_type : string;
  separable : bool;
  modes_lat_local : Z;
  modes_lon_local : Z;
  nlat_local : Z;
  nlon_local : Z;
  weight : NDArray;
  weight_is_shared_mp : list string;
  weight_sharded_dims_mp : list (option string);
  _contract : ContractFun;
  bias : option NDArray
}.

(** Lines 57-59. *)
Definition conv_scale_residual (fwd inv : Transform) : result bool :=
  let scale_residual :=
    negb (t_nlat fwd =? t_nlat inv) || negb (t_nlon fwd =? t_nlon inv) in
  match t_grid fwd with
  | None => ok scale_residual
  | Some g =>
      if scale_residual then ok true
      else match t_grid inv with
           | None => raise AttributeError
           | Some g' => ok (negb (String.eqb g g'))
           end
  end.

(** Lines 73-82. *)
Definition local_modes (inv : Transform) (modes_lat modes_lon : Z)
  : result (Z * Z * Z * Z) :=
  match t_distributed inv with
  | Some d =>
      l <- getitem (l_shapes d) rank_h ;;
      m <- getitem (m_shapes d) rank_w ;;
      la <- getitem (lat_shapes d) rank_h ;;
      lo <- getitem (lon_shapes d) rank_w ;;
      ok (l, m, la, lo)
  | None => ok (modes_lat, modes_lon, t_nlat inv, t_nlon inv)
  end.

(** Lines 85-90. *)
Definition extend_weight_shape (operator_type : string) (weight_shape : list Z)
    (modes_lat_local modes_lon_local : Z) : result (list Z) :=
  if String.eqb operator_type "diagonal"
  then ok (weight_shape ++ [modes_lat_local; modes_lon_local])
  else if String.eqb operator_type "dhconv"
  then ok (weight_shape ++ [modes_lat_local])
  else raise ValueError.

(** Line 93, before [torch.ones]: [math.sqrt(gain / (in_channels // num_groups))];
    the radicand is returned, the square root is taken in the reals. *)
Definition init_radicand (gain : Q) (in_channels num_groups : Z) : result Q :=
  let d := in_channels / num_groups in
  if d =? 0 then raise ZeroDivisionError
  else
    let q := (gain / inject_Z d)%Q in
    if Qle_bool 0 q then ok q else raise ValueError.

(** Lines 93-95: the scale vector, one entry per local latitudinal mode. *)
Definition init_scale (gain : Q) (in_channels num_groups modes_lat_local : Z)
  : result NDArray :=
  q <- init_radicand gain in_channels num_groups ;;
  ones <- torch_ones modes_lat_local ;;
  let scale := scalar_mul (sqrt (Q2R q)) ones in
  imul_at_0 scale (sqrt 2).

(** Lines 93-96. *)
Definition init_weight (noise : list Z -> C) (gain : Q)
    (in_channels num_groups modes_lat_local : Z) (weight_shape : list Z)
  : result NDArray :=
  scale <- init_scale gain in_channels num_groups modes_lat_local ;;
  r <- torch_randn noise weight_shape ;;
  torch_mul scale r.

(** Lines 99-107. *)
Definition sharded_dims (operator_type : string) (weight_shape : list Z)
  : list string * list (option string) :=
  let n := List.length weight_shape in
  if String.eqb operator_type "dhconv"
  then (["matmul"; "w"], repeat None (n - 1) ++ [Some "h"])
  else (["matmul"], repeat None (n - 2) ++ [Some "h"; Some "w"]).

(** Lines 112-115. *)
Definition init_bias (bias : bool) (out_channels : Z) : result (option NDArray) :=
  if bias then
    if out_channels <? 0 then raise RuntimeError
    else ok (Some (mkND [1; out_channels; 1; 1] (fun _ => (0%R, 0%R))))
  else ok None.

Definition SpectralConv_init (noise : list Z -> C)
    (forward_transform inverse_transform : Transform)
    (in_channels out_channels num_groups : Z) (operator_type : string)
    (separable bias : bool) (gain : Q) : result SpectralConv :=
  c <- mod_is_zero in_channels num_groups ;;
  assert 44 c ;;;
  c <- mod_is_zero out_channels num_groups ;;
  assert 45 c ;;;
  let modes_lat := t_lmax inverse_transform in
  let modes_lon := t_mmax inverse_transform in
  scale_residual <- conv_scale_residual forward_transform inverse_transform ;;
  assert 65 (t_lmax inverse_transform =? modes_lat) ;;;
  assert 66 (t_mmax inverse_transform =? modes_lon) ;;;
  let weight_shape := [num_groups; in_channels / num_groups] in
  let weight_shape :=
    if separable then weight_shape
    else weight_shape ++ [out_channels / num_groups] in
  loc <- local_modes inverse_transform modes_lat modes_lon ;;
  let '(modes_lat_local, modes_lon_local, nlat_local, nlon_local) := loc in
  weight_shape <- extend_weight_shape operator_type weight_shape
                    modes_lat_local modes_lon_local ;;
  init <- init_weight noise gain in_channels num_groups modes_lat_local
            weight_shape ;;
  let labels := sharded_dims operator_type weight_shape in
  contract <- get_contract_fun init separable operator_type ;;
  b <- init_bias bias out_channels ;;
  ok {| forward_transform := forward_transform;
        inverse_transform := inverse_transform;
        in_channels := in_channels;
        out_channels := out_channels;
        num_groups := num_groups;
        modes_lat := modes_lat;
        modes_lon := modes_lon;
        scale_residual := scale_residual;
        operator_type := operator_type;
        separable := separable;
        modes_lat_local := modes_lat_local;
        modes_lon_local := modes_lon_local;
        nlat_local := nlat_local;
        nlon_local := nlon_local;
        weight := init;
        weight_is_shared_mp := fst labels;
        weight_sharded_dims_mp := snd labels;
        _contract := contract;
        bias := b |}.

(** [B, C, H, W = x.shape] *)
Definition unpack4 (s : list Z) : result (Z * Z * Z * Z) :=
  match s with
  | [b; c; h; w] => ok (b, c, h, w)
  | _ => raise ValueError
  end.

Definition floordiv (a b : Z) : result Z :=
  if b =? 0 then raise ZeroDivisionError else ok (a / b).

Definition SpectralConv_forward (self : SpectralConv) (x : Tensor)
  : result (Tensor * Tensor) :=
  let dtype := dtype_of x in
  let residual := x in
  let x := to_dtype x float32 in
  x <- t_call (forward_transform self) x ;;
  let x := contiguous x in
  residual <- (if scale_residual self
               then r <- t_call (inverse_transform self) x ;;
                    ok (to_dtype r dtype)
               else ok residual) ;;
  bchw <- unpack4 (shape_of x) ;;
  let '(B, Ch, H, W) := bchw in
  cg <- floordiv Ch (num_groups self) ;;
  x <- reshape x [B; num_groups self; cg; H; W] ;;
  xp <- _contract self x (weight self) (separable self) (operator_type self) ;;
  x <- reshape xp [B; out_channels self; H; W] ;;
  let x := contiguous x in
  x <- t_call (inverse_transform self) x ;;
  let x := match bias self with
           | Some b => add_bias x b
           | None => x
           end in
  let x := to_dtype x dtype in
  ok (x, residual).

(** **** SpectralAttention *)

(** The attributes [__init__] assigns up to line 186. *)
Record SpectralAttention : Type := {
  att_in_channels : Z;
  att_out_channels : Z;
  att_operator_type : string;
  att_spectral_layers : Z;
  att_modes_lat : Z;
  att_modes_lon : Z;
  att_forward_transform : Transform;
  att_inverse_transform : Transform;
  att_scale_residual : bool
}.

(** Lines 177-181; [or] evaluates its operands from the left and stops at
    the first true one. *)
Definition attention_scale_residual (fwd inv : Transform) : result bool :=
  if negb (t_nlat fwd =? t_nlat inv) then ok true
  else if negb (t_nlon fwd =? t_nlon inv) then ok true
  else match t_grid fwd, t_grid inv with
       | Some g, Some g' => ok (negb (String.eqb g g'))
       | _, _ => raise AttributeError
       end.

(** The names [compl_muladd2d_fwd], [compl_mul2d_fwd], [compl_exp_muladd2d_fwd]
    and [compl_exp_mul2d_fwd], read at lines 189 and 211, are neither
    imported nor defined in the module: reading them raises [NameError], in
    both supported branches, before any weight is created. *)
Definition SpectralAttention_init (forward_transform inverse_transform : Transform)
    (in_channels out_channels : Z) (operator_type : string)
    (hidden_size_factor : Q) (complex_activation : string) (bias : bool)
    (spectral_layers : Z) (drop_rate gain : Q) : result SpectralAttention :=
  let modes_lat := t_lmax forward_transform in
  let modes_lon := t_mmax forward_transform in
  scale_residual <- attention_scale_residual forward_transform inverse_transform ;;
  assert 183 (t_lmax inverse_transform =? modes_lat) ;;;
  assert 184 (t_mmax inverse_transform =? modes_lon) ;;;
  if String.eqb operator_type "diagonal" then raise NameError
  else if String.eqb operator_type "l-dependant" then raise NameError
  else raise ValueError.

(** [forward_mlp] works through the contraction handles and the activation
    modules of the object. *)
Variable forward_mlp : SpectralAttention -> Tensor -> result Tensor.

Definition SpectralAttention_forward (self : SpectralAttention) (x : Tensor)
  : result (Tensor * Tensor) :=
  let dtype := dtype_of x in
  let residual := x in
  let x := to_dtype x float32 in
  x <- t_call (att_forward_transform self) x ;;
  residual <- (if att_scale_residual self
               then r <- t_call (att_inverse_transform self) x ;;
                    ok (to_dtype r dtype)
               else ok residual) ;;
  x <- forward_mlp self x ;;
  x <- t_call (att_inverse_transform self) x ;;
  let x := to_dtype x dtype in
  ok (x, residual).

(** **** The grids of the two transforms *)

Definition same_grid (fwd inv : Transform) : Prop :=
  t_nlat fwd = t_nlat inv /\ t_nlon fwd = t_nlon inv /\ t_grid fwd = t_grid inv.

(** The two transforms differ in [nlat], in [nlon], or the forward transform
    has a grid identifier and the inverse transform does not have the same. *)
Definition grids_differ (fwd inv : Transform) : Prop :=
  t_nlat fwd <> t_nlat inv \/ t_nlon fwd <> t_nlon inv
  \/ (exists g, t_grid fwd = Some g /\ t_grid inv <> Some g).

(** The low-pass reconstruction of [x] at the resolution of [inv], in the
    dtype of [x]. *)
Definition low_pass (prepare : Tensor -> Tensor) (fwd inv : Transform)
    (x : Tensor) (residual : Tensor) : Prop :=
  exists xs r,
    t_call fwd (to_dtype x float32) = ok xs
    /\ t_call inv (prepare xs) = ok r
    /\ residual = to_dtype r (dtype_of x).

(** The entry [l] of the scale vector made from the radicand [q]. *)
Definition scale_entry (q : Q) (l : Z) : C :=
  if l =? 0 then RCmul (sqrt 2) (RCmul (sqrt (Q2R q)) (1%R, 0%R))
  else RCmul (sqrt (Q2R q)) (1%R, 0%R).

(** [idx] is an index into a tensor of shape [s]. *)
Definition in_bounds (idx s : list Z) : Prop :=
  Forall2 (fun i d => 0 <= i < d) idx s.

End Operators.

(** *** Example transforms and operators

    A tensor is a dtype flag ([true] for float32) and a number; applying a
    transform adds its [nlat] to the number. *)

Definition ex_transform (nlat nlon lmax mmax : Z) (grid : option string)
  : Transform (bool * Z) :=
  {| t_call := fun x => ok (fst x, snd x + nlat);
     t_nlat := nlat; t_nlon := nlon; t_lmax := lmax; t_mmax := mmax;
     t_grid := grid; t_distributed := None |}.

(** A transform whose call raises. *)
Definition ex_failing_transform (nlat nlon lmax mmax : Z) (grid : option string)
  : Transform (bool * Z) :=
  {| t_call := fun _ => raise RuntimeError;
     t_nlat := nlat; t_nlon := nlon; t_lmax := lmax; t_mmax := mmax;
     t_grid := grid; t_distributed := None |}.

Definition ex_contract : ContractFun (bool * Z) :=
  fun x _ _ _ => ok x.

Definition ex_noise (idx : list Z) : C := (1%R, 1%R).

Definition ex_conv_init :=
  SpectralConv_init (bool * Z) O O (fun _ _ _ => ok ex_contract) ex_noise.

Definition ex_conv_forward :=
  SpectralConv_forward (bool * Z) bool true fst (fun x d => (d, snd x))
    (fun x => x) (fun _ => [1; 1; 2; 2]) (fun x _ => ok x) (fun x _ => x).

Definition ex_attention_forward :=
  SpectralAttention_forward (bool * Z) bool true fst (fun x d => (d, snd x))
    (fun _ x => ok x).

(** Lines 68-71: the leading axes of the weight: groups, input channels
    per group and, unless separable, output channels per group. *)
Definition base_shape (in_channels out_channels num_groups : Z)
    (separable : bool) : list Z :=
  if separable then [num_groups; in_channels / num_groups]
  else [num_groups; in_channels / num_groups] ++ [out_channels / num_groups].

Definition ex_attention (fwd inv : Transform (bool * Z)) (flag : bool)
  : SpectralAttention (bool * Z) :=
  {| att_in_channels := 1; att_out_channels := 1;
     att_operator_type := "diagonal"; att_spectral_layers := 1;
     att_modes_lat := t_lmax _ fwd; att_modes_lon := t_mmax _ fwd;
     att_forward_transform := fwd; att_inverse_transform := inv;
     att_scale_residual := flag |}.

End Spectral.

(** * Properties *)

(** ** Step wrappers *)

Module StepperFacts.

Import Torch Stepper.

Lemma range_succ (n : Z) :
  0 <= n -> range (n + 1) = range n ++ [n].
Proof.
  intros Hn. unfold range.
  replace (Z.to_nat (n + 1)) with (S (Z.to_nat n)) by lia.
  rewrite seq_S, map_app. simpl. now rewrite Z2Nat.id.
Qed.

(** **** [torch.cat] along the channel axis *)

Lemma cat2_fold_none {Slab} (ts : list (Tensor Slab)) :
  fold_left cat2 ts None = None.
Proof. induction ts as [|t ts IH]; [reflexivity | exact IH]. Qed.

Lemma cat2_fold_channels {Slab} (ts : list (Tensor Slab)) (a out : Tensor Slab) :
  fold_left cat2 ts (Some a) = Some out ->
  channels out = channels a ++ concat (map channels ts).
Proof.
  revert a. induction ts as [|t ts IH]; intros a H.
  - cbn in *. injection H as <-. now rewrite app_nil_r.
  - cbn [fold_left cat2] in H. destruct (same_extents a t).
    + apply IH in H. cbn [channels map concat] in *. now rewrite H, app_assoc.
    + now rewrite cat2_fold_none in H.
Qed.

Lemma cat_dim1_channels {Slab} (ts : list (Tensor Slab)) (out : Tensor Slab) :
  cat_dim1 ts = Some out -> channels out = concat (map channels ts).
Proof.
  destruct ts as [|t ts]; [discriminate|].
  intros H. now apply cat2_fold_channels in H.
Qed.

Lemma count_app (p : Call -> bool) (a b : list Call) :
  count p (a ++ b) = (count p a + count p b)%nat.
Proof. unfold count. now rewrite filter_app, length_app. Qed.

Section Facts.

Variables (Slab PState MState : Type).
Variable pp : Preprocessor Slab PState.
Variable net : Tensor Slab -> MState -> Tensor Slab * MState.
Variable self : MultiStepWrapper.

Abbreviation W := (World PState MState).
Abbreviation step := (rollout_step Slab PState MState pp net self).
Abbreviation advance := (rollout_advance Slab PState MState pp).
Abbreviation loop := (rollout Slab PState MState pp net self).
Abbreviation train := (_forward_train Slab PState MState pp net self).
Abbreviation eval := (_forward_eval Slab PState MState pp net).
Abbreviation single := (SingleStepWrapper_forward Slab PState MState pp net).

(** **** Calls made by the pieces of the rollout *)

Abbreviation emits := (@Stepper.emits PState MState _).

Lemma emits_ret {A} (a : A) : emits (ret PState MState a) [].
Proof. intros w. simpl. now rewrite app_nil_r. Qed.

Lemma emits_bind {A B} (m : M PState MState A) (k : A -> M PState MState B)
    (a b : list Call) :
  emits m a -> (forall x, emits (k x) b) ->
  emits (bind PState MState m k) (a ++ b).
Proof.
  intros Hm Hk w. unfold bind.
  specialize (Hm w). destruct (m w) as [x w']. simpl in Hm.
  rewrite Hk, Hm. now rewrite app_assoc.
Qed.

Lemma emits_on_pre {A} (c : Call) (f : PState -> A * PState) :
  emits (on_pre PState MState c f) [c].
Proof. intros w. unfold on_pre. now destruct (f (pre w)). Qed.

Lemma emits_model (x : Tensor Slab) :
  emits (model Slab PState MState net x) [CModel].
Proof. intros w. unfold model. now destruct (net x (mdl w)). Qed.

Lemma emits_detach (x : Tensor Slab) :
  emits (tensor_detach Slab PState MState x) [CDetach].
Proof. intros w. reflexivity. Qed.

(** **** Runs that differ in the recorded calls only *)

Abbreviation simulates := (@Stepper.simulates PState MState _ _).
Abbreviation agree := (@Stepper.agree PState MState).

Lemma sim_ret {A B} (R : A -> B -> Prop) (a : A) (b : B) :
  R a b -> simulates R (ret PState MState a) (ret PState MState b).
Proof. intros H w w' Hag. cbn. auto. Qed.

Lemma sim_bind {A B A' B'} (R : A -> A' -> Prop) (R' : B -> B' -> Prop)
    (m : M PState MState A) (m' : M PState MState A')
    (k : A -> M PState MState B) (k' : A' -> M PState MState B') :
  simulates R m m' ->
  (forall a a', R a a' -> simulates R' (k a) (k' a')) ->
  simulates R' (bind PState MState m k) (bind PState MState m' k').
Proof.
  intros Hm Hk w w' Hag. unfold bind.
  destruct (Hm w w' Hag) as [Hr Hag'].
  destruct (m w) as [a w1], (m' w') as [a' w1']. cbn [fst snd] in *.
  exact (Hk a a' Hr w1 w1' Hag').
Qed.

Lemma sim_assoc {A B D E} (R : D -> E -> Prop)
    (m : M PState MState A) (k : A -> M PState MState B)
    (h : B -> M PState MState D) (m' : M PState MState E) :
  simulates R (bind PState MState m (fun a => bind PState MState (k a) h)) m' ->
  simulates R (bind PState MState (bind PState MState m k) h) m'.
Proof.
  intros H w w' Hag. specialize (H w w' Hag). unfold bind in *.
  destruct (m w) as [a w1]. exact H.
Qed.

Lemma sim_bind_l {A D E} (R : D -> E -> Prop) (a : A)
    (m : M PState MState A) (k : A -> M PState MState D)
    (m' : M PState MState E) :
  simulates eq m (ret PState MState a) ->
  simulates R (k a) m' ->
  simulates R (bind PState MState m k) m'.
Proof.
  intros Hm Hk w w' Hag. unfold bind.
  destruct (Hm w w' Hag) as [Hr Hag'].
  destruct (m w) as [a0 w1]. cbn [fst snd ret] in *. subst a0.
  exact (Hk w1 w' Hag').
Qed.

Lemma sim_on_pre {A} (c c' : Call) (f : PState -> A * PState) :
  simulates eq (on_pre PState MState c f) (on_pre PState MState c' f).
Proof.
  intros w w' [Hp Hm]. unfold on_pre. rewrite <- Hp.
  destruct (f (pre w)) as [a p]. cbn. repeat split; auto.
Qed.

Lemma sim_model (x : Tensor Slab) :
  simulates eq (model Slab PState MState net x) (model Slab PState MState net x).
Proof.
  intros w w' [Hp Hm]. unfold model. rewrite <- Hm.
  destruct (net x (mdl w)) as [y s]. cbn. repeat split; auto.
Qed.

Lemma sim_detach (x : Tensor Slab) :
  simulates eq (tensor_detach Slab PState MState x) (ret PState MState x).
Proof. intros w w' Hag. cbn. split; [reflexivity | exact Hag]. Qed.

(** Running a composite computation, written with projections. *)

Lemma run_bind {A B} (m : M PState MState A) (k : A -> M PState MState B) (w : W) :
  bind PState MState m k w = k (fst (m w)) (snd (m w)).
Proof. unfold bind. now destruct (m w). Qed.

Lemma run_on_pre {A} (c : Call) (f : PState -> A * PState) (w : W) :
  on_pre PState MState c f w
  = (fst (f (pre w)), mkWorld (snd (f (pre w))) (mdl w) (calls w ++ [c])).
Proof. unfold on_pre. now destruct (f (pre w)). Qed.

Lemma run_model (x : Tensor Slab) (w : W) :
  model Slab PState MState net x w
  = (fst (net x (mdl w)), mkWorld (pre w) (snd (net x (mdl w))) (calls w ++ [CModel])).
Proof. unfold model. now destruct (net x (mdl w)). Qed.

Ltac emits_step :=
  first
    [ apply emits_ret
    | apply emits_model
    | apply emits_detach
    | apply emits_on_pre
    | eapply emits_bind; [ | intros ? ] ].

Lemma pipeline_emits (inp : Tensor Slab) (b : bool) :
  emits (single inp b)
    [CUpdateInternalState b; CAppendUnpredictedFeatures;
     CHistoryComputeStats; CHistoryNormalize false; CAddStaticFeatures;
     CModel; CCorrectBias; CHistoryDenormalize true; CAddResidual].
Proof.
  unfold SingleStepWrapper_forward.
  change [CUpdateInternalState b; CAppendUnpredictedFeatures;
     CHistoryComputeStats; CHistoryNormalize false; CAddStaticFeatures;
     CModel; CCorrectBias; CHistoryDenormalize true; CAddResidual]
    with ([CUpdateInternalState b] ++ [CAppendUnpredictedFeatures] ++
     [CHistoryComputeStats] ++ [CHistoryNormalize false] ++
     [CAddStaticFeatures] ++ [CModel] ++ [CCorrectBias] ++
     [CHistoryDenormalize true] ++ [CAddResidual] ++ []).
  repeat emits_step.
Qed.

Lemma rollout_step_emits (inpt : Tensor Slab) :
  emits (step inpt) (step_calls self).
Proof.
  unfold rollout_step, step_calls.
  change [CAppendUnpredictedFeatures; CHistoryComputeStats;
     CHistoryNormalize false; CAddStaticFeatures;
     CModel; CCorrectBias; CHistoryDenormalize true; CAddResidual]
    with ([CAppendUnpredictedFeatures] ++
     [CHistoryComputeStats] ++ [CHistoryNormalize false] ++
     [CAddStaticFeatures] ++ [CModel] ++ [CCorrectBias] ++
     [CHistoryDenormalize true] ++ [CAddResidual] ++ []).
  eapply emits_bind.
  - destruct (push_forward_mode self); [apply emits_detach | apply emits_ret].
  - intros ?. repeat emits_step.
Qed.

Lemma rollout_advance_emits (inpt pred : Tensor Slab) (i : Z) :
  emits (advance inpt pred i) [CUpdateInternalState false; CAppendHistory i].
Proof.
  unfold rollout_advance.
  change [CUpdateInternalState false; CAppendHistory i]
    with ([CUpdateInternalState false] ++ [CAppendHistory i]).
  repeat emits_step.
Qed.

(** The loop over the steps [lo, lo+1, ..., n_future]. *)
Lemma rollout_emits (len lo : nat) (inpt : Tensor Slab) (res : list (Tensor Slab)) :
  Z.of_nat (lo + len) = n_future self ->
  emits (loop (map Z.of_nat (seq lo (S len))) inpt res)
    (concat (map (advancing_step_calls self) (map Z.of_nat (seq lo len)))
     ++ step_calls self).
Proof.
  revert lo inpt res.
  induction len as [|len IH]; intros lo inpt res Hn.
  - cbn [seq map concat app rollout].
    replace (step_calls self) with (step_calls self ++ []) by apply app_nil_r.
    eapply emits_bind; [apply rollout_step_emits|].
    intros ip. cbv zeta.
    replace (Z.of_nat lo =? n_future self) with true
      by (symmetry; apply Z.eqb_eq; lia).
    apply emits_ret.
  - change (seq lo (S (S len))) with (lo :: seq (S lo) (S len)).
    change (seq lo (S len)) with (lo :: seq (S lo) len).
    cbn [map concat rollout]. unfold advancing_step_calls at 1.
    repeat rewrite <- app_assoc.
    eapply emits_bind; [apply rollout_step_emits|].
    intros ip. cbv zeta.
    replace (Z.of_nat lo =? n_future self) with false
      by (symmetry; apply Z.eqb_neq; lia).
    eapply emits_bind; [apply rollout_advance_emits|].
    intros inpt'. apply IH. lia.
Qed.

Lemma rollout_predictions (len lo : nat) (inpt : Tensor Slab)
    (res : list (Tensor Slab)) (w : W) :
  Z.of_nat (lo + len) = n_future self ->
  fst (loop (map Z.of_nat (seq lo (S len))) inpt res w)
  = res ++ map (fun k => prediction_at Slab PState MState pp net self
                           (entry_from Slab PState MState pp net self (inpt, w) lo k))
               (seq 0 (S len)).
Proof.
  revert lo inpt res w.
  induction len as [|len IH]; intros lo inpt res w Hn.
  - cbn [seq map rollout entry_from]. unfold bind, prediction_at. cbn [fst snd].
    destruct (step inpt w) as [ip w1]. cbn [fst snd].
    replace (Z.of_nat lo =? n_future self) with true
      by (symmetry; apply Z.eqb_eq; lia).
    reflexivity.
  - change (seq lo (S (S len))) with (lo :: seq (S lo) (S len)).
    change (seq 0 (S (S len))) with (O :: seq 1 (S len)).
    rewrite <- (seq_shift (S len) 0). cbn [map rollout]. rewrite map_map.
    cbn [entry_from].
    unfold bind at 1. unfold prediction_at at 1. cbn [fst snd].
    unfold step_over. cbn [fst snd].
    destruct (step inpt w) as [ip w1]. cbn [fst snd].
    replace (Z.of_nat lo =? n_future self) with false
      by (symmetry; apply Z.eqb_neq; lia).
    unfold bind at 1.
    destruct (advance (fst ip) (snd ip) (Z.of_nat lo) w1) as [inpt' w2].
    rewrite IH by lia. now rewrite <- app_assoc.
Qed.

Lemma range_as_seq (n : Z) :
  0 <= n -> range (n + 1) = map Z.of_nat (seq 0 (S (Z.to_nat n))).
Proof.
  intros Hn. unfold range. now replace (Z.to_nat (n + 1)) with (S (Z.to_nat n)) by lia.
Qed.

Lemma forward_train_emits (inp : Tensor Slab) :
  0 <= n_future self ->
  emits (train inp)
    ([CUpdateInternalState true]
     ++ concat (map (advancing_step_calls self) (range (n_future self)))
     ++ step_calls self).
Proof.
  intros Hn. unfold _forward_train.
  eapply emits_bind; [apply emits_on_pre|]. intros _.
  rewrite range_as_seq by assumption.
  replace (concat (map (advancing_step_calls self) (range (n_future self)))
           ++ step_calls self)
    with ((concat (map (advancing_step_calls self) (range (n_future self)))
           ++ step_calls self) ++ []) by apply app_nil_r.
  eapply emits_bind; [apply rollout_emits; lia|].
  intros ?. apply emits_ret.
Qed.

Lemma step_calls_no_update :
  count is_reset (step_calls self) = 0%nat
  /\ count is_advance (step_calls self) = 0%nat.
Proof. unfold step_calls. destruct (push_forward_mode self); split; reflexivity. Qed.

Lemma advancing_calls_count (l : list Z) :
  count is_reset (concat (map (advancing_step_calls self) l)) = 0%nat
  /\ count is_advance (concat (map (advancing_step_calls self) l)) = List.length l.
Proof.
  destruct step_calls_no_update as [Hr Ha].
  induction l as [|i l [IHr IHa]]; [split; reflexivity|].
  cbn [map concat List.length]. unfold advancing_step_calls at 1 3.
  rewrite !count_app, Hr, Ha, IHr, IHa. split; reflexivity.
Qed.

Lemma range_length (n : Z) : List.length (range n) = Z.to_nat n.
Proof. unfold range. now rewrite length_map, length_seq. Qed.

(** C2: one training rollout resets the preprocessor state exactly once, as
    its very first call, and advances it exactly [n_future] times; the calls
    of the terminal step, which end the rollout, contain no state update. *)
Theorem forward_train_state_updates (inp : Tensor Slab) (w : W) :
  0 <= n_future self ->
  calls (snd (train inp w)) = calls w ++ train_calls self
  /\ hd_error (train_calls self) = Some (CUpdateInternalState true)
  /\ count is_reset (train_calls self) = 1%nat
  /\ Z.of_nat (count is_advance (train_calls self)) = n_future self
  /\ (exists before,
        train_calls self = before ++ step_calls self
        /\ count is_advance (step_calls self) = 0%nat
        /\ count is_reset (step_calls self) = 0%nat).
Proof.
  intros Hn.
  destruct step_calls_no_update as [Hr Ha].
  destruct (advancing_calls_count (range (n_future self))) as [Cr Ca].
  split; [apply forward_train_emits; assumption|].
  split; [reflexivity|].
  unfold train_calls. rewrite !count_app, Hr, Ha, Cr, Ca, range_length.
  split; [reflexivity|]. split; [cbn; lia|].
  exists ([CUpdateInternalState true]
          ++ concat (map (advancing_step_calls self) (range (n_future self)))).
  rewrite <- app_assoc. auto.
Qed.

(** C7: the training rollout returns the [n_future + 1] step predictions,
    Step(0) first, concatenated along dimension 1: the channels of the
    result are the channels of the predictions, one prediction after the
    other. *)
Theorem forward_train_concatenates_predictions (inp : Tensor Slab) (w : W) :
  0 <= n_future self ->
  let preds := map (step_prediction Slab PState MState pp net self inp w)
                   (seq 0 (Z.to_nat (n_future self + 1))) in
  fst (train inp w) = cat_dim1 preds
  /\ Z.of_nat (List.length preds) = n_future self + 1
  /\ (forall out, fst (train inp w) = Some out ->
        channels out = concat (map channels preds)).
Proof.
  intros Hn preds. subst preds.
  assert (Hcat : fst (train inp w)
                 = cat_dim1 (map (step_prediction Slab PState MState pp net self inp w)
                               (seq 0 (Z.to_nat (n_future self + 1))))); [|split; [exact Hcat|split]].
  - unfold _forward_train, bind, step_prediction.
    destruct (update_internal_state Slab PState MState pp true w) as [u w0].
    cbn [snd].
    pose proof (rollout_predictions (Z.to_nat (n_future self)) 0 inp [] w0) as H.
    rewrite <- range_as_seq in H by assumption.
    destruct (loop (range (n_future self + 1)) inp [] w0) as [res w1].
    cbn [fst] in H. rewrite H by lia. cbn [fst ret app].
    now replace (Z.to_nat (n_future self + 1)) with (S (Z.to_nat (n_future self))) by lia.
  - rewrite length_map, length_seq. lia.
  - intros out Hout. rewrite Hcat in Hout. now apply cat_dim1_channels.
Qed.

(** C6: in evaluation mode [forward] makes the nine calls of one pipeline
    pass, each once and in order, whatever [n_future] and [push_forward_mode]
    are: there is no detach, no advance and a single reset; the output is the
    one the single-step pipeline gives. *)
Theorem forward_eval_single_pass (resid push : bool) (n : Z)
    (inp : Tensor Slab) (w : W) :
  let wrapper := {| residual_mode := resid; push_forward_mode := push;
                    n_future := n; training := false |} in
  let run := MultiStepWrapper_forward Slab PState MState pp net wrapper inp w in
  calls (snd run) = calls w ++ eval_calls
  /\ count is_detach eval_calls = 0%nat
  /\ count is_advance eval_calls = 0%nat
  /\ count is_reset eval_calls = 1%nat
  /\ NoDup eval_calls
  /\ fst run = Some (fst (single inp true w)).
Proof.
  cbv zeta. unfold MultiStepWrapper_forward. cbn [training].
  repeat split; try reflexivity.
  - pose proof (pipeline_emits inp true w) as H.
    unfold bind at 1.
    change (eval inp) with (single inp true).
    destruct (single inp true w) as [y w']. exact H.
  - repeat constructor; cbn; intuition discriminate.
  - unfold bind at 1.
    change (eval inp) with (single inp true).
    now destruct (single inp true w).
Qed.

(** C1: in training mode with [n_future = 0] the multi-step wrapper returns
    what the single-step wrapper returns on the same model, preprocessor
    state and input, and leaves the preprocessor and the model in the same
    state. *)
Theorem forward_train_zero_future_is_single_step (resid push : bool)
    (inp : Tensor Slab) (w : W) :
  let wrapper := {| residual_mode := resid; push_forward_mode := push;
                    n_future := 0; training := true |} in
  let multi := MultiStepWrapper_forward Slab PState MState pp net wrapper inp w in
  let one := single inp true w in
  fst multi = Some (fst one)
  /\ pre (snd multi) = pre (snd one)
  /\ mdl (snd multi) = mdl (snd one).
Proof.
  cbv zeta.
  assert (S : simulates (fun o y => o = Some y)
                (MultiStepWrapper_forward Slab PState MState pp net
                   {| residual_mode := resid; push_forward_mode := push;
                      n_future := 0; training := true |} inp)
                (single inp true)).
  { unfold MultiStepWrapper_forward, _forward_train, SingleStepWrapper_forward.
    cbn [training n_future].
    change (range (0 + 1)) with [0].
    eapply sim_bind; [apply sim_on_pre | intros ? ? _].
    cbn [rollout]. apply sim_assoc. unfold rollout_step. apply sim_assoc.
    cbn [push_forward_mode].
    assert (D : simulates eq
                  (if push then tensor_detach Slab PState MState inp
                   else ret PState MState inp)
                  (ret PState MState inp)).
    { destruct push; [apply sim_detach | apply sim_ret; reflexivity]. }
    eapply sim_bind_l; [exact D|].
    unfold append_unpredicted_features, history_compute_stats,
      history_normalize, add_static_features, correct_bias,
      history_denormalize, add_residual.
    do 8 (apply sim_assoc;
          eapply sim_bind;
          [first [apply sim_on_pre | apply sim_model] | intros ? ? <-]).
    intros w1 w2 Hag. cbn. auto. }
  destruct (S w w) as [H1 [H2 H3]]; [split; reflexivity|].
  auto.
Qed.

End Facts.

(** Runs on the example preprocessor. *)

Lemma forward_train_state_updates_witness :
  calls (snd (_forward_train Z _ nat toy_pp toy_net (toy_wrapper 2 true true)
                toy_input toy_world))
  = train_calls (toy_wrapper 2 true true)
  /\ count is_advance (train_calls (toy_wrapper 2 true true)) = 2%nat.
Proof.
  destruct (forward_train_state_updates Z _ nat toy_pp toy_net
              (toy_wrapper 2 true true) toy_input toy_world)
    as (H1 & _ & _ & H2 & _).
  - simpl. lia.
  - split; [exact H1 | reflexivity].
Defined.

Lemma forward_train_concatenates_predictions_witness :
  fst (_forward_train Z _ nat toy_pp toy_net (toy_wrapper 2 false true)
         toy_input toy_world)
  = Some (mkTensor 1 2 4 [6; 10; 12; 20; 24; 40]).
Proof.
  destruct (forward_train_concatenates_predictions Z _ nat toy_pp toy_net
              (toy_wrapper 2 false true) toy_input toy_world) as [H _].
  - simpl. lia.
  - rewrite H. reflexivity.
Defined.

End StepperFacts.

(** ** Visualization wrapper *)

Module VisualizeFacts.

Import String Visualize.
Local Open Scope string_scope.
Local Open Scope list_scope.

(** **** The order on keys *)

Lemma str_ltb_lt (a b : string) :
  str_ltb a b = true <-> OrdersEx.String_as_OT.lt a b.
Proof.
  unfold str_ltb, OrdersEx.String_as_OT.lt.
  destruct (OrdersEx.String_as_OT.compare a b); split; congruence.
Qed.

Lemma key_lt_irrefl (a : string) : ~ key_lt a a.
Proof.
  unfold key_lt. rewrite str_ltb_lt.
  apply (StrictOrder_Irreflexive (R := OrdersEx.String_as_OT.lt)).
Qed.

Lemma key_lt_trans (a b c : string) : key_lt a b -> key_lt b c -> key_lt a c.
Proof.
  unfold key_lt. rewrite !str_ltb_lt.
  apply (StrictOrder_Transitive (R := OrdersEx.String_as_OT.lt)).
Qed.

Lemma key_lt_total (a b : string) : a <> b -> key_lt a b \/ key_lt b a.
Proof.
  intros Hne. unfold key_lt. rewrite !str_ltb_lt.
  destruct (OrdersEx.String_as_OT.compare_spec a b) as [E|L|G]; auto.
  now elim Hne.
Qed.

Lemma key_lt_asym (a b : string) : key_lt a b -> key_lt b a -> False.
Proof. intros H1 H2. exact (key_lt_irrefl a (key_lt_trans _ _ _ H1 H2)). Qed.

Section Items.

Variable V : Type.

Abbreviation item := (string * V)%type.

Abbreviation item_lt := (@Visualize.item_lt V).
Abbreviation item_le := (@Visualize.item_le V).

(** **** [dict_set] on a key that is not present *)

Lemma dict_set_fresh (d : list item) (k : string) (v : V) :
  ~ In k (map fst d) -> dict_set d k v = d ++ [(k, v)].
Proof.
  induction d as [|[k' v'] d IH]; intros Hk; [reflexivity|].
  cbn [dict_set app]. cbn [map fst In] in Hk.
  destruct (String.eqb_spec k' k) as [E|N]; [tauto|].
  rewrite IH by tauto. reflexivity.
Qed.

Lemma dict_set_keys_incl (d : list item) (k : string) (v : V) (k0 : string) :
  In k0 (map fst (dict_set d k v)) <-> k0 = k \/ In k0 (map fst d).
Proof.
  induction d as [|[k' v'] d IH]; cbn [dict_set map fst In].
  - intuition.
  - destruct (String.eqb_spec k' k) as [E|N]; cbn [map fst In].
    + subst. intuition.
    + rewrite IH. intuition.
Qed.

Lemma dict_set_length_le (d : list item) (k : string) (v : V) :
  (List.length d <= List.length (dict_set d k v) <= S (List.length d))%nat.
Proof.
  induction d as [|[k' v'] d IH]; cbn [dict_set List.length]; [lia|].
  destruct (String.eqb k' k); cbn [List.length]; lia.
Qed.

(** **** [sorted] *)

Lemma insert_item_perm (x : item) (l : list item) :
  Permutation (insert_item x l) (x :: l).
Proof.
  induction l as [|y l IH]; cbn [insert_item]; [reflexivity|].
  destruct (str_ltb (fst x) (fst y)); [reflexivity|].
  rewrite IH. apply perm_swap.
Qed.

Lemma sorted_items_perm (l : list item) : Permutation (sorted_items l) l.
Proof.
  induction l as [|x l IH]; cbn [sorted_items]; [reflexivity|].
  rewrite insert_item_perm. now constructor.
Qed.

Lemma item_le_trans (x y z : item) : item_le x y -> item_le y z -> item_le x z.
Proof.
  unfold item_le. intros Hxy Hyz.
  destruct (str_ltb (fst z) (fst x)) eqn:Hzx; [|reflexivity].
  destruct (String.string_dec (fst y) (fst x)) as [E|N].
  - rewrite E in Hyz. congruence.
  - destruct (key_lt_total _ _ N) as [H|H]; unfold key_lt in *; [congruence|].
    destruct (String.string_dec (fst z) (fst y)) as [E'|N'].
    + rewrite E' in Hzx. congruence.
    + destruct (key_lt_total _ _ N') as [H'|H']; unfold key_lt in *; [congruence|].
      pose proof (key_lt_trans _ _ _ Hzx H) as T. unfold key_lt in T.
      exfalso. exact (key_lt_asym _ _ T H').
Qed.

Lemma insert_item_sorted (x : item) (l : list item) :
  StronglySorted item_le l -> StronglySorted item_le (insert_item x l).
Proof.
  induction 1 as [|y l Hs IH Hy]; cbn [insert_item].
  - repeat constructor.
  - destruct (str_ltb (fst x) (fst y)) eqn:Hxy.
    + constructor; [now constructor|].
      assert (Hle : item_le x y).
      { unfold item_le. destruct (str_ltb (fst y) (fst x)) eqn:Hyx; [|reflexivity].
        exfalso. exact (key_lt_asym _ _ Hxy Hyx). }
      constructor; [assumption|].
      rewrite Forall_forall in *. intros z Hz.
      exact (item_le_trans _ _ _ Hle (Hy z Hz)).
    + constructor; [assumption|].
      rewrite Forall_forall in *. intros z Hz.
      apply (Permutation_in _ (insert_item_perm x l)) in Hz.
      destruct Hz as [<-|Hz]; [exact Hxy | now apply Hy].
Qed.

Lemma sorted_items_sorted (l : list item) :
  StronglySorted item_le (sorted_items l).
Proof.
  induction l as [|x l IH]; cbn [sorted_items]; [constructor|].
  now apply insert_item_sorted.
Qed.

Lemma sorted_strict (l : list item) :
  NoDup (map fst l) -> StronglySorted item_le l -> StronglySorted item_lt l.
Proof.
  induction l as [|x l IH]; intros Hnd Hs; [constructor|].
  inversion Hnd as [|? ? Hnotin Hnd']; subst.
  inversion Hs as [|? ? Hs' Hall]; subst.
  constructor; [now apply IH|].
  rewrite Forall_forall in *. intros y Hy.
  specialize (Hall y Hy). unfold item_le in Hall. unfold item_lt.
  destruct (String.string_dec (fst x) (fst y)) as [E|N].
  - elim Hnotin. rewrite E. now apply in_map.
  - destruct (key_lt_total _ _ N) as [H|H]; [assumption|].
    unfold key_lt in H. congruence.
Qed.

(** Two strictly sorted lists with the same elements are the same list. *)
Lemma strictly_sorted_unique (l1 l2 : list item) :
  Permutation l1 l2 ->
  StronglySorted item_lt l1 -> StronglySorted item_lt l2 -> l1 = l2.
Proof.
  revert l2. induction l1 as [|x l1 IH]; intros l2 Hp H1 H2.
  - apply Permutation_nil in Hp. now subst.
  - destruct l2 as [|y l2].
    + symmetry in Hp. apply Permutation_nil in Hp. discriminate.
    + inversion H1 as [|? ? H1' A1]; subst.
      inversion H2 as [|? ? H2' A2]; subst.
      rewrite Forall_forall in A1, A2.
      assert (x = y) as ->.
      { assert (Hx : In x (y :: l2)) by (apply (Permutation_in _ Hp); now left).
        assert (Hy : In y (x :: l1))
          by (apply (Permutation_in _ (Permutation_sym Hp)); now left).
        destruct Hx as [Hx|Hx]; [now symmetry|].
        destruct Hy as [Hy|Hy]; [assumption|].
        exfalso. exact (key_lt_asym _ _ (A1 _ Hy) (A2 _ Hx)). }
      f_equal. apply IH; try assumption.
      now apply Permutation_cons_inv in Hp.
Qed.

Lemma sorted_items_of_perm (l1 l2 : list item) :
  NoDup (map fst l1) -> Permutation l1 l2 -> sorted_items l1 = sorted_items l2.
Proof.
  intros Hnd Hp.
  assert (Hnd2 : NoDup (map fst l2)).
  { apply (Permutation_NoDup (l := map fst l1)); [now apply Permutation_map | assumption]. }
  apply strictly_sorted_unique.
  - rewrite !sorted_items_perm. assumption.
  - apply sorted_strict; [|apply sorted_items_sorted].
    apply (Permutation_NoDup (l := map fst l1)); [|assumption].
    apply Permutation_map. symmetry. apply sorted_items_perm.
  - apply sorted_strict; [|apply sorted_items_sorted].
    apply (Permutation_NoDup (l := map fst l2)); [|assumption].
    apply Permutation_map. symmetry. apply sorted_items_perm.
Qed.

End Items.

Section WrapperFacts.

Variables Array Coord Image Frame : Type.
Variable draw : Job Array Coord -> Image.
Variable asarray : Image -> Frame.
Variable transpose_201 : Frame -> Frame.

Abbreviation Wrapper := (VisualizationWrapper Array Coord).
Abbreviation collect := (Visualize.collect Array Coord Image draw).
Abbreviation job_item := (Visualize.job_item Array Coord Image draw).
Abbreviation job_prefix := (Visualize.job_prefix Array Coord).
Abbreviation finalize :=
  (Visualize.finalize Array Coord Image Frame draw asarray transpose_201).

(** **** [add] enqueues one job per plot item *)

Lemma add_requests_length (self : Wrapper) (tag : string) (p t : Array) :
  List.length (requests _ _ (add _ _ self tag p t))
  = (List.length (requests _ _ self) + List.length (plot_list _ _ self))%nat.
Proof. cbn. now rewrite length_app, length_map. Qed.

Lemma add_all_cons (a : string * Array * Array)
    (adds : list (string * Array * Array)) (self : Wrapper) :
  add_all _ _ self (a :: adds)
  = add_all _ _ (add _ _ self (fst (fst a)) (snd (fst a)) (snd a)) adds.
Proof. reflexivity. Qed.

Lemma add_all_plot_list (adds : list (string * Array * Array)) (self : Wrapper) :
  plot_list _ _ (add_all _ _ self adds) = plot_list _ _ self.
Proof.
  revert self. induction adds as [|a adds IH]; intros self; [reflexivity|].
  rewrite add_all_cons, IH. reflexivity.
Qed.

Lemma add_all_generate_video (adds : list (string * Array * Array)) (self : Wrapper) :
  generate_video _ _ (add_all _ _ self adds) = generate_video _ _ self.
Proof.
  revert self. induction adds as [|a adds IH]; intros self; [reflexivity|].
  rewrite add_all_cons, IH. reflexivity.
Qed.

Lemma add_all_requests_length (adds : list (string * Array * Array)) (self : Wrapper) :
  List.length (requests _ _ (add_all _ _ self adds))
  = (List.length (requests _ _ self)
     + List.length adds * List.length (plot_list _ _ self))%nat.
Proof.
  revert self. induction adds as [|a adds IH]; intros self.
  - cbn. lia.
  - rewrite add_all_cons, IH, add_requests_length.
    cbn [List.length plot_list add set_requests]. lia.
Qed.

(** **** Collecting results whose keys are distinct *)

Lemma collect_from (l : list (Job Array Coord)) (acc : list (string * Image)) :
  NoDup (map fst acc ++ map job_prefix l) ->
  fold_left
    (fun results request =>
       let (token, image) := visualize_field Array Coord Image draw request in
       dict_set results (result_prefix token) image)
    l acc
  = acc ++ map job_item l.
Proof.
  revert acc. induction l as [|j l IH]; intros acc Hnd.
  - cbn. now rewrite app_nil_r.
  - cbn [fold_left map visualize_field].
    rewrite dict_set_fresh.
    + rewrite IH.
      * now rewrite <- app_assoc.
      * rewrite map_app, <- app_assoc. exact Hnd.
    + cbn [map] in Hnd. apply NoDup_remove_2 in Hnd.
      intros Hin. apply Hnd. apply in_or_app. now left.
Qed.

Lemma collect_distinct (l : list (Job Array Coord)) :
  NoDup (map job_prefix l) -> collect l = map job_item l.
Proof. intros Hnd. unfold Visualize.collect. now rewrite collect_from. Qed.

Lemma job_item_keys (l : list (Job Array Coord)) :
  map fst (map job_item l) = map job_prefix l.
Proof. rewrite map_map. reflexivity. Qed.

(** C8, as the code has it: when the keys [field_name ++ "_" ++ tag] of the
    enqueued jobs are pairwise distinct, [finalize] files exactly one entry
    per job (one job per plot item per [add] call), the entries are taken in
    strictly ascending order of that key, and both the entries and what is
    handed over for output are the same for every completion order. *)
Theorem finalize_deterministic_for_distinct_keys
    (log : bool) (path prefix : string) (items : list PlotItem)
    (lat lon : option Coord) (scale bias : Array)
    (adds : list (string * Array * Array))
    (completed : list (Job Array Coord)) :
  let self := add_all Array Coord
                (VisualizationWrapper_init Array Coord log path prefix items
                   lat lon scale bias) adds in
  NoDup (map job_prefix (requests _ _ self)) ->
  Permutation completed (requests _ _ self) ->
  List.length (requests _ _ self) = (List.length adds * List.length items)%nat
  /\ List.length (collect completed) = List.length (requests _ _ self)
  /\ Permutation (map fst (collect completed)) (map job_prefix (requests _ _ self))
  /\ StronglySorted item_lt (sorted_items (collect completed))
  /\ sorted_items (collect completed)
     = sorted_items (map job_item (requests _ _ self))
  /\ finalize self completed = finalize self (requests _ _ self).
Proof.
  intros self Hnd Hp.
  assert (Hndc : NoDup (map job_prefix completed)).
  { apply (Permutation_NoDup (l := map job_prefix (requests _ _ self)));
      [apply Permutation_map; now symmetry | assumption]. }
  assert (Hsort : sorted_items (collect completed)
                  = sorted_items (map job_item (requests _ _ self))).
  { rewrite (collect_distinct completed Hndc).
    apply sorted_items_of_perm.
    - now rewrite job_item_keys.
    - now apply Permutation_map. }
  split.
  { subst self. rewrite add_all_requests_length. reflexivity. }
  split.
  { rewrite (collect_distinct completed Hndc), length_map.
    now apply Permutation_length. }
  split.
  { rewrite (collect_distinct completed Hndc), job_item_keys.
    now apply Permutation_map. }
  split.
  { apply sorted_strict; [|apply sorted_items_sorted].
    apply (Permutation_NoDup (l := map fst (collect completed))).
    - apply Permutation_map. symmetry. apply sorted_items_perm.
    - now rewrite (collect_distinct completed Hndc), job_item_keys. }
  split; [exact Hsort|].
  unfold Visualize.finalize.
  replace (generate_video Array Coord self) with true
    by (subst self; now rewrite add_all_generate_video).
  rewrite Hsort, <- (collect_distinct _ Hnd). reflexivity.
Qed.

End WrapperFacts.

Lemma finalize_deterministic_for_distinct_keys_witness :
  Visualize.finalize nat unit _ _ ex_draw (fun i => i) (fun f => f)
    ex_distinct (rev (requests _ _ ex_distinct))
  = Visualize.finalize nat unit _ _ ex_draw (fun i => i) (fun f => f)
      ex_distinct (requests _ _ ex_distinct)
  /\ List.length (Visualize.collect nat unit _ ex_draw
                    (rev (requests _ _ ex_distinct))) = 4%nat.
Proof.
  destruct (finalize_deterministic_for_distinct_keys nat unit _ _ ex_draw
              (fun i => i) (fun f => f) false "out" "viz"
              (map ex_item ["u10m"; "t2m"]) None None 1%nat 0%nat
              [("000", 1%nat, 1%nat); ("001", 2%nat, 2%nat)]
              (rev (requests _ _ ex_distinct)))
    as (_ & Hlen & _ & _ & _ & Hfin).
  - vm_compute. repeat constructor; cbn; intuition discriminate.
  - symmetry. apply Permutation_rev.
  - split; [exact Hfin | exact Hlen].
Defined.

(** C8 as stated fails: four jobs whose (field_name, tag) pairs are all
    different are enqueued, two of them get the same key
    ["a" ++ "_" ++ "b_c" = "a_b" ++ "_" ++ "c"], so only three entries are
    filed, and which of the two images survives depends on the completion
    order. *)
Lemma finalize_colliding_keys_counterexample :
  let jobs := requests _ _ ex_colliding in
  NoDup (map (job_tag nat unit) jobs)
  /\ List.length jobs = 4%nat
  /\ List.length (Visualize.collect nat unit _ ex_draw jobs) = 3%nat
  /\ Permutation (rev jobs) jobs
  /\ Visualize.finalize nat unit _ _ ex_draw (fun i => i) (fun f => f)
       ex_colliding (rev jobs)
     <> Visualize.finalize nat unit _ _ ex_draw (fun i => i) (fun f => f)
          ex_colliding jobs.
Proof.
  cbv zeta. split.
  { vm_compute. repeat constructor; cbn; intuition discriminate. }
  split; [reflexivity|]. split; [reflexivity|].
  split; [symmetry; apply Permutation_rev|].
  vm_compute. intros H. discriminate H.
Qed.

(** The order of the keys is the order of the concatenated strings, which is
    not the order of the pairs (field_name, tag): ["a!"] comes after ["a"],
    but ["a!_t"] comes before ["a_t"]. *)
Lemma key_order_is_not_pair_order :
  str_ltb "a" "a!" = true
  /\ str_ltb (result_prefix ("t", "a!")) (result_prefix ("t", "a")) = true.
Proof. split; reflexivity. Qed.

End VisualizeFacts.

(** ** Spectral operators *)

Module SpectralFacts.

Import String QArith Reals Lra Spectral.
Local Open Scope string_scope.
Local Open Scope list_scope.
Local Open Scope Z_scope.

Lemma and_then_ok {A B} (r : result A) (k : A -> result B) (b : B) :
  and_then r k = inr b -> exists a, r = inr a /\ k a = inr b.
Proof. destruct r as [e|a]; cbn; [discriminate | eauto]. Qed.

Lemma and_then_raise {A B} (r : result A) (k : A -> result B) (e : PyError) :
  r = inl e -> and_then r k = inl e.
Proof. intros ->. reflexivity. Qed.

Lemma assert_ok (line : Z) (c : bool) (u : unit) :
  assert line c = inr u -> c = true.
Proof. destruct c; [reflexivity | discriminate]. Qed.

Lemma mod_is_zero_ok (a b : Z) (c : bool) :
  mod_is_zero a b = inr c -> b <> 0 /\ c = (a mod b =? 0).
Proof.
  unfold mod_is_zero. destruct (Z.eqb_spec b 0); [discriminate|].
  intros [= <-]. auto.
Qed.

(** **** The scale vector *)

Lemma Cnorm2_RCmul_sqrt2 (z : C) :
  Cnorm2 (RCmul (sqrt 2) z) = (2 * Cnorm2 z)%R.
Proof.
  unfold Cnorm2, RCmul. cbn [fst snd].
  replace (sqrt 2 * fst z * (sqrt 2 * fst z) + sqrt 2 * snd z * (sqrt 2 * snd z))%R
    with ((sqrt 2 * sqrt 2) * (fst z * fst z + snd z * snd z))%R by ring.
  rewrite sqrt_sqrt by lra. reflexivity.
Qed.

Lemma scale_entry_variance (q : Q) (l : Z) :
  l <> 0 -> Cnorm2 (scale_entry q 0) = (2 * Cnorm2 (scale_entry q l))%R.
Proof.
  intros Hl. unfold scale_entry.
  destruct (Z.eqb_spec l 0) as [E|_]; [contradiction|].
  cbn [Z.eqb]. apply Cnorm2_RCmul_sqrt2.
Qed.

Lemma init_scale_ok (gain : Q) (in_channels num_groups L : Z) (scale : NDArray) :
  init_scale gain in_channels num_groups L = inr scale ->
  exists q,
    init_radicand gain in_channels num_groups = inr q
    /\ 0 < L
    /\ nd_shape scale = [L]
    /\ forall l, nd_at scale [l] = scale_entry q l.
Proof.
  unfold init_scale. intros H.
  apply and_then_ok in H as (q & Hq & H).
  apply and_then_ok in H as (ones & Hones & H).
  unfold torch_ones in Hones.
  destruct (Z.ltb_spec L 0) as [Hneg|Hpos]; [discriminate|].
  injection Hones as <-.
  unfold imul_at_0, scalar_mul in H. cbn [nd_shape nd_at] in H.
  destruct (Z.leb_spec L 0) as [Hz|Hz]; [discriminate|].
  injection H as <-.
  exists q. repeat split; try assumption.
  intros l. cbn [nd_at]. unfold scale_entry.
  destruct l; reflexivity.
Qed.

Lemma init_scale_shape (gain : Q) (in_channels num_groups L : Z) (scale : NDArray) :
  init_scale gain in_channels num_groups L = inr scale -> nd_shape scale = [L].
Proof. intros H. apply init_scale_ok in H as (q & _ & _ & Hs & _). exact Hs. Qed.

(** **** Broadcasting the scale vector against the weight shape *)

Lemma broadcast_rev_nil_l (b : list Z) : broadcast_rev [] b = Some b.
Proof. reflexivity. Qed.

Lemma broadcast_dhconv (ws : list Z) (L : Z) :
  broadcast_shapes [L] (ws ++ [L]) = Some (ws ++ [L]).
Proof.
  unfold broadcast_shapes. rewrite rev_app_distr. cbn [rev app broadcast_rev].
  rewrite Z.eqb_refl. cbn [option_map rev]. now rewrite rev_involutive.
Qed.

Lemma broadcast_diagonal (ws : list Z) (L M : Z) :
  broadcast_shapes [L] (ws ++ [L; M])
  = if L =? M then Some (ws ++ [L; L])
    else if L =? 1 then Some (ws ++ [L; M])
    else if M =? 1 then Some (ws ++ [L; L])
    else None.
Proof.
  unfold broadcast_shapes. rewrite rev_app_distr. cbn [rev app broadcast_rev].
  destruct (L =? M); [|destruct (L =? 1); [|destruct (M =? 1)]];
    cbn [option_map rev]; rewrite ?rev_involutive, <- ?app_assoc; reflexivity.
Qed.

Lemma zip_index_in_bounds (idx s : list Z) :
  in_bounds idx s -> zip_index s idx = idx.
Proof.
  induction 1 as [|i d idx s Hi _ IH]; [reflexivity|].
  cbn [zip_index]. rewrite IH.
  destruct (Z.eqb_spec d 1); [f_equal; lia | reflexivity].
Qed.

Lemma in_bounds_length (idx s : list Z) :
  in_bounds idx s -> List.length idx = List.length s.
Proof. induction 1; cbn; congruence. Qed.

Lemma operand_index_full (idx s : list Z) :
  in_bounds idx s -> operand_index s idx = idx.
Proof.
  intros H. unfold operand_index.
  rewrite (in_bounds_length _ _ H), Nat.sub_diag. cbn [skipn].
  now apply zip_index_in_bounds.
Qed.

Lemma in_bounds_last (pre ws : list Z) (l L : Z) :
  in_bounds (pre ++ [l]) (ws ++ [L]) ->
  List.length pre = List.length ws /\ 0 <= l < L.
Proof.
  intros H. pose proof (in_bounds_length _ _ H) as Hlen.
  rewrite !length_app in Hlen. cbn in Hlen.
  assert (Hl : List.length pre = List.length ws) by lia.
  split; [assumption|].
  unfold in_bounds in H. apply Forall2_app_inv_l in H as (s1 & s2 & H1 & H2 & E).
  inversion H2 as [|? d ? ? Hb Hnil]; subst. inversion Hnil; subst.
  apply app_inj_tail in E as [_ <-]. exact Hb.
Qed.

(** **** The initial weight *)

Lemma init_weight_ok (noise : list Z -> C) (gain : Q)
    (in_channels num_groups L : Z) (ws : list Z) (w : NDArray) :
  init_weight noise gain in_channels num_groups L ws = inr w ->
  exists q s scale,
    init_radicand gain in_channels num_groups = inr q
    /\ 0 < L
    /\ broadcast_shapes [L] ws = Some s
    /\ nd_shape w = s
    /\ (forall l, nd_at scale [l] = scale_entry q l)
    /\ forall idx,
         nd_at w idx
         = Cmul (nd_at scale (operand_index [L] idx))
                (noise (operand_index ws idx)).
Proof.
  unfold init_weight. intros H.
  apply and_then_ok in H as (scale & Hscale & H).
  apply and_then_ok in H as (r & Hr & H).
  apply init_scale_ok in Hscale as (q & Hq & HL & Hshape & Hat).
  unfold torch_randn in Hr. destruct (valid_shape ws); [|discriminate].
  injection Hr as <-.
  unfold torch_mul in H. rewrite Hshape in H. cbn [nd_shape nd_at] in H.
  destruct (broadcast_shapes [L] ws) as [s|]; [|discriminate].
  injection H as <-.
  exists q, s, scale. repeat split; assumption || reflexivity.
Qed.

(** On the [dhconv] path the last axis of the weight is the latitudinal
    mode: the entries of mode 0 carry the factor [sqrt 2], all others do
    not, and the squared modulus of the scale of mode 0 is twice that of any
    other mode. *)
Lemma dhconv_weight_entries (noise : list Z -> C) (gain : Q)
    (in_channels num_groups L : Z) (ws : list Z) (w : NDArray)
    (pre : list Z) (l : Z) :
  init_weight noise gain in_channels num_groups L (ws ++ [L]) = inr w ->
  in_bounds (pre ++ [l]) (ws ++ [L]) ->
  exists q,
    init_radicand gain in_channels num_groups = inr q
    /\ nd_shape w = ws ++ [L]
    /\ nd_at w (pre ++ [l]) = Cmul (scale_entry q l) (noise (pre ++ [l]))
    /\ (l <> 0 -> Cnorm2 (scale_entry q 0) = (2 * Cnorm2 (scale_entry q l))%R).
Proof.
  intros H Hb.
  apply init_weight_ok in H as (q & s & scale & Hq & HL & Hs & Hshape & Hsc & Hat).
  rewrite broadcast_dhconv in Hs. injection Hs as <-.
  exists q. split; [assumption|]. split; [assumption|].
  split; [|apply scale_entry_variance].
  rewrite Hat, (operand_index_full _ _ Hb). f_equal.
  destruct (in_bounds_last _ _ _ _ Hb) as [Hlen Hl].
  unfold operand_index. rewrite length_app. cbn [List.length].
  replace (List.length pre + 1 - 1)%nat with (List.length pre) by lia.
  rewrite skipn_app, skipn_all, Nat.sub_diag. cbn [skipn app zip_index].
  rewrite <- Hsc. f_equal. f_equal.
  destruct (Z.eqb_spec L 1); [lia | reflexivity].
Qed.

(** On the [diagonal] path the weight ends in the axes [L; M] and the scale
    vector, of length [L], is broadcast against the last of them. *)
Lemma diagonal_weight_raises (noise : list Z -> C) (gain : Q)
    (in_channels num_groups L M : Z) (ws : list Z) :
  L <> M -> L <> 1 -> M <> 1 ->
  exists e,
    init_weight noise gain in_channels num_groups L (ws ++ [L; M]) = inl e.
Proof.
  intros HLM HL HM. unfold init_weight.
  destruct (init_scale gain in_channels num_groups L) as [e|scale] eqn:Hscale;
    [exists e; reflexivity|].
  cbn [and_then].
  destruct (torch_randn noise (ws ++ [L; M])) as [e|r] eqn:Hr;
    [exists e; reflexivity|].
  cbn [and_then]. unfold torch_mul.
  rewrite (init_scale_shape _ _ _ _ _ Hscale).
  unfold torch_randn in Hr. destruct (valid_shape (ws ++ [L; M])); [|discriminate].
  injection Hr as <-. cbn [nd_shape].
  rewrite broadcast_diagonal.
  destruct (Z.eqb_spec L M); [contradiction|].
  destruct (Z.eqb_spec L 1); [contradiction|].
  destruct (Z.eqb_spec M 1); [contradiction|].
  exists RuntimeError. reflexivity.
Qed.

(** C4 at a failing input: operator type [diagonal] with two latitudinal and
    two longitudinal modes, one group, one channel, gain 1.  The weight is
    created, but the factor [sqrt 2] sits on the entries of longitudinal
    index 0: the entry of latitudinal mode 0 at longitudinal index 1 has the
    plain scale, the entry of latitudinal mode 1 at longitudinal index 0 has
    the raised one. *)
Theorem diagonal_weight_scale_on_longitude (noise : list Z -> C) :
  extend_weight_shape "diagonal" [1; 1; 1] 2 2 = inr [1; 1; 1; 2; 2]
  /\ exists w,
       init_weight noise 1 1 1 2 [1; 1; 1; 2; 2] = inr w
       /\ nd_at w [0; 0; 0; 0; 1]
          = Cmul (scale_entry 1 1) (noise [0; 0; 0; 0; 1])
       /\ nd_at w [0; 0; 0; 1; 0]
          = Cmul (scale_entry 1 0) (noise [0; 0; 0; 1; 0])
       /\ Cnorm2 (scale_entry 1 0) = (2 * Cnorm2 (scale_entry 1 1))%R.
Proof.
  split; [reflexivity|].
  eexists. split; [lazy - [Rmult Rplus Rminus sqrt Q2R IZR]; reflexivity|].
  split; [reflexivity|]. split; [reflexivity|].
  apply scale_entry_variance. discriminate.
Qed.

Section OperatorFacts.


Variables Tensor DType : Type.
Variable float32 : DType.
Variable dtype_of : Tensor -> DType.
Variable to_dtype : Tensor -> DType -> Tensor.
Variable contiguous : Tensor -> Tensor.
Variable shape_of : Tensor -> list Z.
Variable reshape : Tensor -> list Z -> result Tensor.
Variable add_bias : Tensor -> NDArray -> Tensor.
Variables rank_h rank_w : nat.
Variable get_contract_fun : NDArray -> bool -> string -> result (ContractFun Tensor).
Variable forward_mlp : SpectralAttention Tensor -> Tensor -> result Tensor.

Abbreviation conv_init := (SpectralConv_init Tensor rank_h rank_w get_contract_fun).
Abbreviation conv_forward :=
  (SpectralConv_forward Tensor DType float32 dtype_of to_dtype contiguous
     shape_of reshape add_bias).
Abbreviation attention_forward :=
  (SpectralAttention_forward Tensor DType float32 dtype_of to_dtype forward_mlp).

(** C9: a channel count that [num_groups] does not divide makes the
    constructor of the Mode-Mixing Operator raise, in its first two
    statements, whatever the operator type. *)
Theorem SpectralConv_init_rejects_indivisible_channels
    (noise : list Z -> C) (fwd inv : Transform Tensor)
    (in_channels out_channels num_groups : Z) (operator_type : string)
    (separable bias : bool) (gain : Q) :
  ~ (num_groups | in_channels) \/ ~ (num_groups | out_channels) ->
  exists e,
    conv_init noise fwd inv in_channels out_channels num_groups operator_type
      separable bias gain = inl e
    /\ (e = ZeroDivisionError \/ e = AssertionError 44 \/ e = AssertionError 45).
Proof.
  intros Hdiv. unfold SpectralConv_init, mod_is_zero.
  destruct (Z.eqb_spec num_groups 0) as [E|N].
  - exists ZeroDivisionError. cbn. auto.
  - cbn [and_then ok raise].
    destruct (Z.eqb_spec (in_channels mod num_groups) 0) as [Ei|Ni].
    + cbn [assert and_then ok raise].
      destruct (Z.eqb_spec (out_channels mod num_groups) 0) as [Eo|No].
      * exfalso. destruct Hdiv as [H|H]; apply H; now apply Z.mod_divide.
      * exists (AssertionError 45). cbn. auto.
    + exists (AssertionError 44). cbn. auto.
Qed.

(** **** What a constructed SpectralConv holds *)

Lemma SpectralConv_init_ok (noise : list Z -> C) (fwd inv : Transform Tensor)
    (in_channels out_channels num_groups : Z) (op : string)
    (sep b : bool) (gain : Q) (self : SpectralConv Tensor) :
  conv_init noise fwd inv in_channels out_channels num_groups op sep b gain
  = inr self ->
  forward_transform _ self = fwd
  /\ inverse_transform _ self = inv
  /\ conv_scale_residual Tensor fwd inv = inr (scale_residual _ self)
  /\ local_modes Tensor rank_h rank_w inv (t_lmax _ inv) (t_mmax _ inv)
     = inr (modes_lat_local _ self, modes_lon_local _ self,
            nlat_local _ self, nlon_local _ self)
  /\ exists ws,
       extend_weight_shape op
         (if sep then [num_groups; in_channels / num_groups]
          else [num_groups; in_channels / num_groups]
               ++ [out_channels / num_groups])
         (modes_lat_local _ self) (modes_lon_local _ self) = inr ws
       /\ init_weight noise gain in_channels num_groups
            (modes_lat_local _ self) ws = inr (weight _ self).
Proof.
  unfold SpectralConv_init. intros H.
  apply and_then_ok in H as (c1 & _ & H).
  apply and_then_ok in H as (u1 & _ & H).
  apply and_then_ok in H as (c2 & _ & H).
  apply and_then_ok in H as (u2 & _ & H).
  apply and_then_ok in H as (sr & Hsr & H).
  apply and_then_ok in H as (u3 & _ & H).
  apply and_then_ok in H as (u4 & _ & H).
  apply and_then_ok in H as ([[[L M] la] lo] & Hloc & H).
  apply and_then_ok in H as (ws & Hws & H).
  apply and_then_ok in H as (w & Hw & H).
  apply and_then_ok in H as (contract & _ & H).
  apply and_then_ok in H as (bs & _ & H).
  injection H as <-. cbn.
  repeat split; try assumption.
  exists ws. split; assumption.
Qed.

(** C10, as the code has it: with operator type [diagonal] the constructor
    raises whenever the local latitudinal mode count differs from the local
    longitudinal mode count and neither of the two counts is 1. *)
Theorem SpectralConv_init_diagonal_needs_broadcastable_modes
    (noise : list Z -> C) (fwd inv : Transform Tensor)
    (in_channels out_channels num_groups : Z) (sep b : bool) (gain : Q)
    (L M la lo : Z) :
  local_modes Tensor rank_h rank_w inv (t_lmax _ inv) (t_mmax _ inv)
  = inr (L, M, la, lo) ->
  L <> M -> L <> 1 -> M <> 1 ->
  exists e,
    conv_init noise fwd inv in_channels out_channels num_groups "diagonal"
      sep b gain = inl e.
Proof.
  intros Hloc HLM HL HM.
  destruct (conv_init noise fwd inv in_channels out_channels num_groups
              "diagonal" sep b gain) as [e|self] eqn:Hinit;
    [exists e; reflexivity|].
  exfalso.
  apply SpectralConv_init_ok in Hinit as (_ & _ & _ & Hloc' & ws & Hws & Hw).
  rewrite Hloc in Hloc'. injection Hloc' as EL EM _ _.
  rewrite <- EL in Hws, Hw. rewrite <- EM in Hws.
  cbn in Hws. injection Hws as Ews. rewrite <- Ews in Hw.
  destruct sep.
  - destruct (diagonal_weight_raises noise gain in_channels num_groups L M
                [num_groups; in_channels / num_groups] HLM HL HM) as [e He].
    cbn [app] in He, Hw. congruence.
  - destruct (diagonal_weight_raises noise gain in_channels num_groups L M
                ([num_groups; in_channels / num_groups]
                 ++ [out_channels / num_groups]) HLM HL HM) as [e He].
    cbn [app] in He, Hw. congruence.
Qed.

(** **** The residual flag *)

Lemma conv_scale_residual_same (fwd inv : Transform Tensor) (flag : bool) :
  conv_scale_residual Tensor fwd inv = inr flag ->
  same_grid Tensor fwd inv -> flag = false.
Proof.
  unfold conv_scale_residual, same_grid. intros H (Hlat & Hlon & Hgrid).
  rewrite Hlat, Hlon, !Z.eqb_refl in H. cbn [negb orb] in H.
  rewrite Hgrid in H. destruct (t_grid _ inv) as [g|].
  - rewrite String.eqb_refl in H. now injection H as <-.
  - now injection H as <-.
Qed.

Lemma conv_scale_residual_differ (fwd inv : Transform Tensor) (flag : bool) :
  conv_scale_residual Tensor fwd inv = inr flag ->
  grids_differ Tensor fwd inv -> flag = true.
Proof.
  unfold conv_scale_residual, grids_differ. intros H Hd.
  destruct (Z.eqb_spec (t_nlat _ fwd) (t_nlat _ inv)) as [Elat|Nlat];
    cbn [negb orb] in H.
  - destruct (Z.eqb_spec (t_nlon _ fwd) (t_nlon _ inv)) as [Elon|Nlon];
      cbn [negb] in H.
    + destruct Hd as [Hd|[Hd|(g & Hg & Hne)]]; try contradiction.
      rewrite Hg in H. destruct (t_grid _ inv) as [g'|]; [|discriminate].
      destruct (String.eqb_spec g g') as [->|_]; [now elim Hne|].
      now injection H as <-.
    + destruct (t_grid _ fwd); now injection H as <-.
  - destruct (t_grid _ fwd); now injection H as <-.
Qed.

Lemma attention_scale_residual_same (fwd inv : Transform Tensor) (flag : bool) :
  attention_scale_residual Tensor fwd inv = inr flag ->
  same_grid Tensor fwd inv -> flag = false.
Proof.
  unfold attention_scale_residual, same_grid. intros H (Hlat & Hlon & Hgrid).
  rewrite Hlat, Hlon, !Z.eqb_refl in H. cbn [negb] in H.
  rewrite Hgrid in H. destruct (t_grid _ inv) as [g|]; [|discriminate].
  rewrite String.eqb_refl in H. now injection H as <-.
Qed.

Lemma attention_scale_residual_differ (fwd inv : Transform Tensor) (flag : bool) :
  attention_scale_residual Tensor fwd inv = inr flag ->
  ~ same_grid Tensor fwd inv -> flag = true.
Proof.
  unfold attention_scale_residual, same_grid. intros H Hd.
  destruct (Z.eqb_spec (t_nlat _ fwd) (t_nlat _ inv)) as [Elat|Nlat];
    cbn [negb] in H; [|now injection H as <-].
  destruct (Z.eqb_spec (t_nlon _ fwd) (t_nlon _ inv)) as [Elon|Nlon];
    cbn [negb] in H; [|now injection H as <-].
  destruct (t_grid _ fwd) as [g|], (t_grid _ inv) as [g'|]; try discriminate.
  destruct (String.eqb_spec g g') as [->|_]; [|now injection H as <-].
  elim Hd. auto.
Qed.

(** **** The residual returned by [forward] *)

Lemma conv_forward_residual (self : SpectralConv Tensor) (x y residual : Tensor) :
  conv_forward self x = inr (y, residual) ->
  if scale_residual _ self
  then low_pass Tensor DType float32 dtype_of to_dtype contiguous
         (forward_transform _ self) (inverse_transform _ self) x residual
  else residual = x.
Proof.
  unfold SpectralConv_forward. intros H.
  apply and_then_ok in H as (xs & Hxs & H).
  apply and_then_ok in H as (res & Hres & H).
  apply and_then_ok in H as ([[[B Ch] Hh] Ww] & _ & H).
  apply and_then_ok in H as (cg & _ & H).
  apply and_then_ok in H as (x1 & _ & H).
  apply and_then_ok in H as (xp & _ & H).
  apply and_then_ok in H as (x2 & _ & H).
  apply and_then_ok in H as (x3 & _ & H).
  injection H as _ <-.
  destruct (scale_residual _ self).
  - apply and_then_ok in Hres as (r & Hr & Hres). injection Hres as <-.
    exists xs, r. auto.
  - now injection Hres as <-.
Qed.

Lemma attention_forward_residual (self : SpectralAttention Tensor)
    (x y residual : Tensor) :
  attention_forward self x = inr (y, residual) ->
  if att_scale_residual _ self
  then low_pass Tensor DType float32 dtype_of to_dtype (fun t => t)
         (att_forward_transform _ self) (att_inverse_transform _ self) x residual
  else residual = x.
Proof.
  unfold SpectralAttention_forward. intros H.
  apply and_then_ok in H as (xs & Hxs & H).
  apply and_then_ok in H as (res & Hres & H).
  apply and_then_ok in H as (x1 & _ & H).
  apply and_then_ok in H as (x2 & _ & H).
  injection H as _ <-.
  destruct (att_scale_residual _ self).
  - apply and_then_ok in Hres as (r & Hr & Hres). injection Hres as <-.
    exists xs, r. auto.
  - now injection Hres as <-.
Qed.

(** C5: the residual that [forward] returns.  For the Mode-Mixing Operator
    built by its constructor from [fwd] and [inv]: the input itself when the
    two transforms have the same [nlat], [nlon] and grid identifier; the
    inverse transform of the unmixed spectral tensor, cast to the dtype of
    the input, when they differ.  The same for a Spectral Attention Operator
    whose residual flag is the one lines 177-181 compute from its
    transforms. *)
Theorem operators_forward_residual (x y residual : Tensor) :
  (forall (noise : list Z -> C) (fwd inv : Transform Tensor)
          (in_channels out_channels num_groups : Z) (op : string)
          (sep b : bool) (gain : Q) (conv : SpectralConv Tensor),
     conv_init noise fwd inv in_channels out_channels num_groups op sep b gain
     = inr conv ->
     conv_forward conv x = inr (y, residual) ->
     (same_grid Tensor fwd inv -> residual = x)
     /\ (grids_differ Tensor fwd inv ->
         low_pass Tensor DType float32 dtype_of to_dtype contiguous
           fwd inv x residual))
  /\ (forall att : SpectralAttention Tensor,
        attention_scale_residual Tensor (att_forward_transform _ att)
          (att_inverse_transform _ att) = inr (att_scale_residual _ att) ->
        attention_forward att x = inr (y, residual) ->
        (same_grid Tensor (att_forward_transform _ att)
           (att_inverse_transform _ att) -> residual = x)
        /\ (~ same_grid Tensor (att_forward_transform _ att)
              (att_inverse_transform _ att) ->
            low_pass Tensor DType float32 dtype_of to_dtype (fun t => t)
              (att_forward_transform _ att) (att_inverse_transform _ att)
              x residual)).
Proof.
  split.
  - intros noise fwd inv in_channels out_channels num_groups op sep b gain conv
      Hinit Hfwd.
    apply SpectralConv_init_ok in Hinit as (Ef & Ei & Hsr & _).
    apply conv_forward_residual in Hfwd. rewrite Ef, Ei in Hfwd.
    split; intros Hg.
    + now rewrite (conv_scale_residual_same _ _ _ Hsr Hg) in Hfwd.
    + now rewrite (conv_scale_residual_differ _ _ _ Hsr Hg) in Hfwd.
  - intros att Hsr Hfwd.
    apply attention_forward_residual in Hfwd.
    split; intros Hg.
    + now rewrite (attention_scale_residual_same _ _ _ Hsr Hg) in Hfwd.
    + now rewrite (attention_scale_residual_differ _ _ _ Hsr Hg) in Hfwd.
Qed.

(** The constructor of the Spectral Attention Operator compares the mode
    counts of the inverse transform with those of the forward transform. *)
Lemma SpectralAttention_init_rejects_mode_mismatch
    (fwd inv : Transform Tensor) (in_channels out_channels : Z) (op : string)
    (hidden_size_factor : Q) (complex_activation : string) (b : bool)
    (spectral_layers : Z) (drop_rate gain : Q) :
  t_lmax _ fwd <> t_lmax _ inv \/ t_mmax _ fwd <> t_mmax _ inv ->
  exists e,
    SpectralAttention_init Tensor fwd inv in_channels out_channels op
      hidden_size_factor complex_activation b spectral_layers drop_rate gain
    = inl e
    /\ (e = AssertionError 183 \/ e = AssertionError 184 \/ e = AttributeError).
Proof.
  intros Hm. unfold SpectralAttention_init.
  destruct (attention_scale_residual Tensor fwd inv) as [e|flag] eqn:Hsr.
  - exists e. split; [reflexivity|].
    unfold attention_scale_residual in Hsr.
    repeat match type of Hsr with
           | context [if ?c then _ else _] => destruct c; try discriminate
           end.
    destruct (t_grid _ fwd), (t_grid _ inv); try discriminate;
      injection Hsr as <-; auto.
  - cbn [and_then].
    destruct (Z.eqb_spec (t_lmax _ inv) (t_lmax _ fwd)) as [El|Nl].
    + cbn [assert and_then ok].
      destruct (Z.eqb_spec (t_mmax _ inv) (t_mmax _ fwd)) as [Em|Nm].
      * exfalso. destruct Hm; congruence.
      * exists (AssertionError 184). cbn. auto.
    + exists (AssertionError 183). cbn. auto.
Qed.

(** The constructor of the Spectral Attention Operator never returns. *)
Lemma SpectralAttention_init_raises
    (fwd inv : Transform Tensor) (in_channels out_channels : Z) (op : string)
    (hidden_size_factor : Q) (complex_activation : string) (b : bool)
    (spectral_layers : Z) (drop_rate gain : Q) :
  exists e,
    SpectralAttention_init Tensor fwd inv in_channels out_channels op
      hidden_size_factor complex_activation b spectral_layers drop_rate gain
    = inl e.
Proof.
  unfold SpectralAttention_init.
  destruct (attention_scale_residual Tensor fwd inv) as [e|flag];
    [exists e; reflexivity|].
  cbn [and_then].
  destruct (assert 183 _) as [e|u]; [exists e; reflexivity|]. cbn [and_then].
  destruct (assert 184 _) as [e|u']; [exists e; reflexivity|]. cbn [and_then].
  destruct (String.eqb op "diagonal"); [eexists; reflexivity|].
  destruct (String.eqb op "l-dependant"); eexists; reflexivity.
Qed.

End OperatorFacts.

Lemma SpectralConv_init_rejects_indivisible_channels_witness :
  exists e,
    ex_conv_init (ex_transform 4 8 3 3 None) (ex_transform 4 8 3 3 None)
      3 4 2 "dhconv" false false 1%Q = inl e
    /\ (e = ZeroDivisionError \/ e = AssertionError 44 \/ e = AssertionError 45).
Proof.
  apply (SpectralConv_init_rejects_indivisible_channels (bool * Z) O O).
  left. intros [k Hk]. lia.
Defined.

(** The assertions of lines 65-66 hold whatever the transforms are. *)
Lemma SpectralConv_mode_assertions_vacuous {Tensor} (inv : Transform Tensor) :
  assert 65 (t_lmax _ inv =? t_lmax _ inv) = ok tt
  /\ assert 66 (t_mmax _ inv =? t_mmax _ inv) = ok tt.
Proof. now rewrite !Z.eqb_refl. Qed.

(** C3 at a failing input: the forward transform has 4 x 4 modes, the
    inverse transform 3 x 3.  The assertions of lines 65-66 compare the mode
    counts of the inverse transform with attributes that line 54-55 copied
    from the inverse transform itself, so the Mode-Mixing Operator is
    constructed. *)
Theorem SpectralConv_init_accepts_mode_mismatch :
  exists self,
    ex_conv_init (ex_transform 4 8 4 4 (Some "equiangular"))
      (ex_transform 4 8 3 3 (Some "equiangular"))
      1 1 1 "dhconv" false false 1%Q = inr self
    /\ t_lmax _ (forward_transform _ self) = 4
    /\ t_lmax _ (inverse_transform _ self) = 3
    /\ modes_lat _ self = 3
    /\ nd_shape (weight _ self) = [1; 1; 1; 3].
Proof.
  eexists. split; [lazy - [Rmult Rplus Rminus sqrt Q2R IZR]; reflexivity|].
  repeat split.
Qed.

(** C10 as stated fails: with two latitudinal modes and one longitudinal
    mode the multiplication broadcasts, the constructor returns, and the
    weight has shape [..., 2, 2] instead of [..., 2, 1]. *)
Lemma SpectralConv_init_diagonal_counterexample :
  exists self,
    ex_conv_init (ex_transform 4 8 2 1 None) (ex_transform 4 8 2 1 None)
      1 1 1 "diagonal" false false 1%Q = inr self
    /\ modes_lat_local _ self = 2
    /\ modes_lon_local _ self = 1
    /\ modes_lat_local _ self <> modes_lon_local _ self
    /\ modes_lat_local _ self <> 1
    /\ nd_shape (weight _ self) = [1; 1; 1; 2; 2].
Proof.
  eexists. split; [lazy - [Rmult Rplus Rminus sqrt Q2R IZR]; reflexivity|].
  repeat split; discriminate.
Qed.

Lemma SpectralConv_init_diagonal_needs_broadcastable_modes_witness :
  exists e,
    ex_conv_init (ex_transform 4 8 3 2 None) (ex_transform 4 8 3 2 None)
      1 1 1 "diagonal" false false 1%Q = inl e.
Proof.
  apply (SpectralConv_init_diagonal_needs_broadcastable_modes (bool * Z) O O
           (fun _ _ _ => ok ex_contract) ex_noise
           (ex_transform 4 8 3 2 None) (ex_transform 4 8 3 2 None)
           1 1 1 false false 1%Q 3 2 4 8).
  - reflexivity.
  - lia.
  - lia.
  - lia.
Defined.

Lemma operators_forward_residual_witness :
  (exists conv,
     ex_conv_init (ex_transform 4 8 3 3 (Some "equiangular"))
       (ex_transform 2 4 3 3 (Some "equiangular"))
       1 1 1 "dhconv" false false 1%Q = inr conv
     /\ ex_conv_forward conv (false, 5) = inr ((false, 11), (false, 11))
     /\ low_pass (bool * Z) bool true fst (fun x d => (d, snd x)) (fun x => x)
          (ex_transform 4 8 3 3 (Some "equiangular"))
          (ex_transform 2 4 3 3 (Some "equiangular"))
          (false, 5) (false, 11))
  /\ (exists y residual,
        ex_attention_forward
          (ex_attention (ex_transform 4 8 3 3 (Some "equiangular"))
             (ex_transform 4 8 3 3 (Some "equiangular")) false) (false, 5)
        = inr (y, residual)
        /\ residual = (false, 5)).
Proof.
  split.
  - eexists. split; [lazy - [Rmult Rplus Rminus sqrt Q2R IZR]; reflexivity|].
    split; [reflexivity|].
    eapply (proj1 (operators_forward_residual (bool * Z) bool true fst
                     (fun x d => (d, snd x)) (fun x => x)
                     (fun _ => [1; 1; 2; 2]) (fun x _ => ok x) (fun x _ => x)
                     O O (fun _ _ _ => ok ex_contract) (fun _ x => ok x)
                     (false, 5) (false, 11) (false, 11))
              ex_noise
              (ex_transform 4 8 3 3 (Some "equiangular"))
              (ex_transform 2 4 3 3 (Some "equiangular"))
              1 1 1 "dhconv" false false 1%Q).
    + lazy - [Rmult Rplus Rminus sqrt Q2R IZR]. reflexivity.
    + reflexivity.
    + left. cbn. lia.
  - eexists. eexists. split; [reflexivity|].
    eapply (proj2 (operators_forward_residual (bool * Z) bool true fst
                     (fun x d => (d, snd x)) (fun x => x)
                     (fun _ => [1; 1; 2; 2]) (fun x _ => ok x) (fun x _ => x)
                     O O (fun _ _ _ => ok ex_contract) (fun _ x => ok x)
                     (false, 5) (false, 13) (false, 5))
              (ex_attention (ex_transform 4 8 3 3 (Some "equiangular"))
                 (ex_transform 4 8 3 3 (Some "equiangular")) false)).
    + reflexivity.
    + reflexivity.
    + repeat split.
Defined.

End SpectralFacts.

(** ** Step wrappers: further properties *)

Module StepperMore.

Import Torch Stepper StepperFacts.

Section Rollouts.

Variables (Slab PState MState : Type).
Variable pp : Preprocessor Slab PState.
Variable net : Tensor Slab -> MState -> Tensor Slab * MState.

Abbreviation W := (World PState MState).
Abbreviation sim := (@Stepper.simulates PState MState _ _).
Abbreviation step := (rollout_step Slab PState MState pp net).
Abbreviation advance := (rollout_advance Slab PState MState pp).
Abbreviation loop := (rollout Slab PState MState pp net).
Abbreviation train := (_forward_train Slab PState MState pp net).
Abbreviation single := (SingleStepWrapper_forward Slab PState MState pp net).
Abbreviation forward := (MultiStepWrapper_forward Slab PState MState pp net).

Ltac sim_op :=
  eapply sim_bind;
  [ first [ apply sim_on_pre | apply sim_model ] | intros ? ? <- ].

(** One step of two wrappers that differ at most in their flags. *)
Lemma sim_rollout_step (a b : MultiStepWrapper) (inpt : Tensor Slab) :
  sim eq (step a inpt) (step b inpt).
Proof.
  unfold rollout_step.
  eapply sim_bind with (R := eq).
  - intros w w' Hag.
    destruct (push_forward_mode a), (push_forward_mode b); cbn; auto.
  - intros ? ? <-.
    unfold append_unpredicted_features, history_compute_stats,
      history_normalize, add_static_features, correct_bias,
      history_denormalize, add_residual.
    do 8 sim_op. now apply sim_ret.
Qed.

Lemma sim_rollout_advance (inpt pred : Tensor Slab) (i : Z) :
  sim eq (advance inpt pred i) (advance inpt pred i).
Proof.
  unfold rollout_advance, update_internal_state, append_history.
  sim_op. apply sim_on_pre.
Qed.

Lemma sim_rollout (a b : MultiStepWrapper) (steps : list Z)
    (inpt : Tensor Slab) (res : list (Tensor Slab)) :
  n_future a = n_future b ->
  sim eq (loop a steps inpt res) (loop b steps inpt res).
Proof.
  intros Hn. revert inpt res.
  induction steps as [|i steps IH]; intros inpt res; cbn [rollout].
  - now apply sim_ret.
  - eapply sim_bind; [apply sim_rollout_step | intros ip ? <-].
    cbv zeta. rewrite Hn.
    destruct (i =? n_future b).
    + now apply sim_ret.
    + eapply sim_bind; [apply sim_rollout_advance | intros ? ? <-].
      apply IH.
Qed.

Lemma sim_forward_eval (inp : Tensor Slab) :
  sim eq (_forward_eval Slab PState MState pp net inp)
         (_forward_eval Slab PState MState pp net inp).
Proof.
  unfold _forward_eval, update_internal_state, append_unpredicted_features,
    history_compute_stats, history_normalize, add_static_features,
    correct_bias, history_denormalize, add_residual.
  do 9 sim_op. now apply sim_ret.
Qed.

(** X1: push-forward mode changes no value.  Whatever [n_future] and the
    training flag are, [forward] returns the same tensor and leaves the
    preprocessor and the model in the same state with the mode on and with
    the mode off. *)
Theorem push_forward_mode_keeps_values (resid resid' tr : bool) (n : Z)
    (inp : Tensor Slab) (w : W) :
  let on := {| residual_mode := resid; push_forward_mode := true;
               n_future := n; training := tr |} in
  let off := {| residual_mode := resid'; push_forward_mode := false;
                n_future := n; training := tr |} in
  fst (forward on inp w) = fst (forward off inp w)
  /\ pre (snd (forward on inp w)) = pre (snd (forward off inp w))
  /\ mdl (snd (forward on inp w)) = mdl (snd (forward off inp w)).
Proof.
  cbv zeta.
  set (on := {| residual_mode := resid; push_forward_mode := true;
                n_future := n; training := tr |}).
  set (off := {| residual_mode := resid'; push_forward_mode := false;
                 n_future := n; training := tr |}).
  assert (S : sim eq (forward on inp) (forward off inp)).
  { unfold MultiStepWrapper_forward. cbn [training on off].
    destruct tr.
    - unfold _forward_train. cbn [n_future on off].
      eapply sim_bind; [apply sim_on_pre | intros ? ? _].
      eapply sim_bind; [apply sim_rollout; reflexivity | intros ? ? <-].
      now apply sim_ret.
    - eapply sim_bind; [apply sim_forward_eval | intros ? ? <-].
      now apply sim_ret. }
  destruct (S w w) as [H1 [H2 H3]]; [split; reflexivity|].
  auto.
Qed.

(** **** Counting the calls of a rollout *)

Section Counting.

Variable self : MultiStepWrapper.

Lemma step_calls_use :
  count is_model (step_calls self) = 1%nat
  /\ count is_detach (step_calls self)
     = (if push_forward_mode self then 1 else 0)%nat
  /\ filter is_append_history (step_calls self) = [].
Proof. unfold step_calls. destruct (push_forward_mode self); repeat split. Qed.

Lemma advancing_calls_use (l : list Z) :
  count is_model (concat (map (advancing_step_calls self) l)) = List.length l
  /\ count is_detach (concat (map (advancing_step_calls self) l))
     = (if push_forward_mode self then List.length l else 0)%nat
  /\ filter is_append_history (concat (map (advancing_step_calls self) l))
     = map CAppendHistory l.
Proof.
  destruct step_calls_use as (Hm & Hd & Hh).
  induction l as [|i l (IHm & IHd & IHh)].
  - destruct (push_forward_mode self); repeat split.
  - cbn [map concat List.length]. unfold advancing_step_calls at 1 3 5.
    rewrite !count_app, !filter_app, Hm, Hd, Hh, IHm, IHd, IHh.
    destruct (push_forward_mode self); repeat split.
Qed.

(** X2: in one training rollout the model runs [n_future + 1] times, the
    input is detached [n_future + 1] times in push-forward mode and never
    otherwise, and [append_history] is called once for each of the steps
    [0 .. n_future - 1], in this order. *)
Theorem training_rollout_collaborator_use (inp : Tensor Slab) (w : W) :
  0 <= n_future self ->
  calls (snd (train self inp w)) = calls w ++ train_calls self
  /\ Z.of_nat (count is_model (train_calls self)) = n_future self + 1
  /\ Z.of_nat (count is_detach (train_calls self))
     = (if push_forward_mode self then n_future self + 1 else 0)
  /\ filter is_append_history (train_calls self)
     = map CAppendHistory (range (n_future self)).
Proof.
  intros Hn.
  destruct step_calls_use as (Hm & Hd & Hh).
  destruct (advancing_calls_use (range (n_future self))) as (Am & Ad & Ah).
  split; [apply forward_train_emits; assumption|].
  unfold train_calls.
  rewrite !count_app, !filter_app, Hm, Hd, Hh, Am, Ad, Ah, range_length.
  cbn [count filter is_model is_detach is_append_history Call_eqb List.length app].
  rewrite app_nil_r.
  destruct (push_forward_mode self); repeat split; lia.
Qed.

(** X3: with a negative [n_future] the loop body never runs: the rollout
    makes the reset and nothing else, and the final [torch.cat] of the empty
    list raises. *)
Theorem training_rollout_negative_future (inp : Tensor Slab) (w : W) :
  n_future self < 0 ->
  fst (train self inp w) = None
  /\ calls (snd (train self inp w)) = calls w ++ [CUpdateInternalState true]
  /\ mdl (snd (train self inp w)) = mdl w.
Proof.
  intros Hn. unfold _forward_train, range.
  replace (Z.to_nat (n_future self + 1)) with 0%nat by lia.
  cbn [seq map rollout]. unfold update_internal_state.
  rewrite run_bind, run_on_pre. cbn [fst snd].
  rewrite run_bind. cbn. auto.
Qed.

(** **** The first step of a rollout *)

Lemma sim_first_step (inp : Tensor Slab) :
  sim (fun ip y => snd ip = y)
    (bind PState MState (update_internal_state Slab PState MState pp true)
       (fun _ => step self inp))
    (single inp true).
Proof.
  unfold SingleStepWrapper_forward.
  eapply sim_bind; [apply sim_on_pre | intros ? ? _].
  unfold rollout_step.
  eapply sim_bind_l.
  - instantiate (1 := inp). intros w w' Hag.
    destruct (push_forward_mode self); cbn; auto.
  - unfold append_unpredicted_features, history_compute_stats,
      history_normalize, add_static_features, correct_bias,
      history_denormalize, add_residual.
    do 8 sim_op. now apply sim_ret.
Qed.

Lemma cat2_fold_extents (ts : list (Tensor Slab)) (a out : Tensor Slab) :
  fold_left cat2 ts (Some a) = Some out ->
  batch out = batch a /\ nlat out = nlat a /\ nlon out = nlon a.
Proof.
  revert a. induction ts as [|t ts IH]; intros a H.
  - cbn in H. injection H as <-. auto.
  - cbn [fold_left cat2] in H. destruct (same_extents a t).
    + apply IH in H. cbn in H. exact H.
    + now rewrite cat2_fold_none in H.
Qed.

(** X4: the first prediction of a training rollout is the output of the
    single-step wrapper on the same input; when the rollout returns, its
    result has the batch and grid extents of that output and its channels
    start with the channels of that output. *)
Theorem training_rollout_starts_with_single_step (inp : Tensor Slab) (w : W) :
  0 <= n_future self ->
  let y := fst (single inp true w) in
  step_prediction Slab PState MState pp net self inp w 0 = y
  /\ (forall out, fst (train self inp w) = Some out ->
        batch out = batch y /\ nlat out = nlat y /\ nlon out = nlon y
        /\ exists rest, channels out = channels y ++ rest).
Proof.
  intros Hn y.
  assert (H0 : step_prediction Slab PState MState pp net self inp w 0 = y).
  { destruct (sim_first_step inp w w) as [H _]; [split; reflexivity|].
    unfold step_prediction, prediction_at. cbn [entry_from fst snd].
    rewrite run_bind in H. exact H. }
  split; [exact H0|].
  intros out Hout.
  unfold _forward_train in Hout. rewrite run_bind in Hout.
  rewrite run_bind in Hout. cbn [ret fst] in Hout.
  rewrite range_as_seq in Hout by assumption.
  rewrite (rollout_predictions _ _ _ pp net self (Z.to_nat (n_future self)) 0)
    in Hout by lia.
  cbn [app seq map] in Hout.
  cbn [entry_from] in Hout.
  unfold step_prediction in H0. cbn [entry_from] in H0.
  rewrite H0 in Hout. cbn [cat_dim1] in Hout.
  destruct (cat2_fold_extents _ _ _ Hout) as (Hb & Hla & Hlo).
  apply cat2_fold_channels in Hout.
  repeat split; try assumption. eauto.
Qed.

Lemma train_calls_detach_count :
  count is_detach (train_calls self)
  = (if push_forward_mode self
     then S (List.length (range (n_future self))) else 0)%nat.
Proof.
  destruct step_calls_use as (_ & Hd & _).
  destruct (advancing_calls_use (range (n_future self))) as (_ & Ad & _).
  unfold train_calls. rewrite !count_app, Hd, Ad.
  destruct (push_forward_mode self); cbn; lia.
Qed.

End Counting.

End Rollouts.

Import String.

Section DefaultWrapper.

Variables (Slab PState MState : Type).
Variable pp : Preprocessor Slab PState.
Variable net : Tensor Slab -> MState -> Tensor Slab * MState.

(** X5: a wrapper built from parameters without the key
    [multistep_push_forward] is in training mode and rolls out without any
    detach; its residual flag is set exactly for the target ["target"]. *)
Theorem default_wrapper_never_detaches (params : Params)
    (inp : Tensor Slab) (w : World PState MState) :
  p_multistep_push_forward params = None ->
  0 <= p_n_future params ->
  let self := MultiStepWrapper_init params in
  calls (snd (MultiStepWrapper_forward Slab PState MState pp net self inp w))
  = calls w ++ train_calls self
  /\ count is_detach (train_calls self) = 0%nat
  /\ (residual_mode self = true <-> p_target params = "target"%string).
Proof.
  intros Hkey Hn self. split; [|split].
  - unfold MultiStepWrapper_forward. cbn [training self MultiStepWrapper_init].
    now apply forward_train_emits.
  - rewrite train_calls_detach_count.
    unfold self, MultiStepWrapper_init. cbn [push_forward_mode].
    now rewrite Hkey.
  - unfold self, MultiStepWrapper_init. cbn [residual_mode].
    destruct (String.eqb_spec (p_target params) "target"); split; congruence.
Qed.

End DefaultWrapper.

Lemma training_rollout_collaborator_use_witness :
  filter is_append_history
    (calls (snd (_forward_train Z _ nat toy_pp toy_net (toy_wrapper 2 true true)
                   toy_input toy_world)))
  = [CAppendHistory 0; CAppendHistory 1].
Proof.
  destruct (training_rollout_collaborator_use Z _ nat toy_pp toy_net
              (toy_wrapper 2 true true) toy_input toy_world)
    as (Hc & _ & _ & Hh).
  - simpl. lia.
  - rewrite Hc. exact Hh.
Defined.

Lemma training_rollout_negative_future_witness :
  fst (_forward_train Z _ nat toy_pp toy_net (toy_wrapper (-1) false true)
         toy_input toy_world) = None.
Proof.
  apply (training_rollout_negative_future Z _ nat toy_pp toy_net
           (toy_wrapper (-1) false true) toy_input toy_world).
  simpl. lia.
Defined.

Lemma training_rollout_starts_with_single_step_witness :
  step_prediction Z _ nat toy_pp toy_net (toy_wrapper 2 true true)
    toy_input toy_world 0
  = mkTensor 1 2 4 [6; 10].
Proof.
  destruct (training_rollout_starts_with_single_step Z _ nat toy_pp toy_net
              (toy_wrapper 2 true true) toy_input toy_world) as [H _].
  - simpl. lia.
  - rewrite H. reflexivity.
Defined.

Lemma default_wrapper_never_detaches_witness :
  count is_detach
    (train_calls
       (MultiStepWrapper_init
          {| p_target := "target"; p_multistep_push_forward := None;
             p_n_future := 1 |})) = 0%nat.
Proof.
  apply (default_wrapper_never_detaches Z _ nat toy_pp toy_net
           {| p_target := "target"; p_multistep_push_forward := None;
              p_n_future := 1 |} toy_input toy_world).
  - reflexivity.
  - simpl. lia.
Defined.

End StepperMore.

(** ** Visualization wrapper: further properties *)

Module VisualizeMore.

Import String Ascii Visualize VisualizeFacts.
Local Open Scope string_scope.
Local Open Scope list_scope.

(** **** Keys of a [dict] *)

Section DictFacts.

Variable V : Type.

Lemma dict_set_keys_nodup (d : list (string * V)) (k : string) (v : V) :
  NoDup (map fst d) -> NoDup (map fst (dict_set d k v)).
Proof.
  induction d as [|[k' v'] d IH]; intros Hnd; cbn [dict_set].
  - cbn. constructor; [intros [] | constructor].
  - cbn [map fst] in Hnd. inversion Hnd as [|? ? Hnotin Hnd']; subst.
    destruct (String.eqb_spec k' k) as [->|N]; cbn [map fst].
    + now constructor.
    + constructor; [|now apply IH].
      rewrite dict_set_keys_incl. intros [E|Hin]; [now elim N | contradiction].
Qed.

Lemma dict_get_set (d : list (string * V)) (k : string) (v : V) (k0 : string) :
  dict_get (dict_set d k v) k0
  = if String.eqb k k0 then Some v else dict_get d k0.
Proof.
  induction d as [|[k' v'] d IH]; cbn [dict_set dict_get].
  - reflexivity.
  - destruct (String.eqb_spec k' k) as [->|N]; cbn [dict_get].
    + destruct (String.eqb_spec k k0); reflexivity.
    + rewrite IH. destruct (String.eqb_spec k' k0) as [->|N'];
        [|reflexivity].
      destruct (String.eqb_spec k k0) as [->|]; [now elim N | reflexivity].
Qed.

(** **** Lists of keys in ascending order *)

Lemma sorted_keys (l : list (string * V)) :
  StronglySorted item_lt l -> StronglySorted key_lt (map fst l).
Proof.
  induction 1 as [|x l Hs IH Hx]; cbn [map]; constructor; [assumption|].
  rewrite Forall_forall in *. intros k Hk.
  apply in_map_iff in Hk as (y & <- & Hy). exact (Hx y Hy).
Qed.

End DictFacts.

Lemma sorted_keys_unique (l1 l2 : list string) :
  Permutation l1 l2 ->
  StronglySorted key_lt l1 -> StronglySorted key_lt l2 -> l1 = l2.
Proof.
  revert l2. induction l1 as [|x l1 IH]; intros l2 Hp H1 H2.
  - apply Permutation_nil in Hp. now subst.
  - destruct l2 as [|y l2].
    + symmetry in Hp. apply Permutation_nil in Hp. discriminate.
    + inversion H1 as [|? ? H1' A1]; subst.
      inversion H2 as [|? ? H2' A2]; subst.
      rewrite Forall_forall in A1, A2.
      assert (x = y) as ->.
      { assert (Hx : In x (y :: l2)) by (apply (Permutation_in _ Hp); now left).
        assert (Hy : In y (x :: l1))
          by (apply (Permutation_in _ (Permutation_sym Hp)); now left).
        destruct Hx as [Hx|Hx]; [now symmetry|].
        destruct Hy as [Hy|Hy]; [assumption|].
        exfalso. exact (key_lt_asym _ _ (A1 _ Hy) (A2 _ Hx)). }
      f_equal. apply IH; try assumption.
      now apply Permutation_cons_inv in Hp.
Qed.

Section Collecting.

Variables Array Coord Image Frame : Type.
Variable draw : Job Array Coord -> Image.
Variable asarray : Image -> Frame.
Variable transpose_201 : Frame -> Frame.

Abbreviation Wrapper := (VisualizationWrapper Array Coord).
Abbreviation collect := (Visualize.collect Array Coord Image draw).
Abbreviation job_prefix := (Visualize.job_prefix Array Coord).
Abbreviation finalize :=
  (Visualize.finalize Array Coord Image Frame draw asarray transpose_201).

(** The first loop of [finalize], started on the dict [acc]. *)
Abbreviation collect_into acc l :=
  (fold_left
     (fun results request =>
        let (token, image) := visualize_field Array Coord Image draw request in
        dict_set results (result_prefix token) image)
     l acc).

Lemma collect_into_keys (l : list (Job Array Coord)) (acc : list (string * Image))
    (k : string) :
  In k (map fst (collect_into acc l))
  <-> In k (map fst acc) \/ In k (map job_prefix l).
Proof.
  revert acc. induction l as [|j l IH]; intros acc; cbn [fold_left map In].
  - tauto.
  - rewrite IH. cbn [visualize_field]. rewrite dict_set_keys_incl.
    unfold Visualize.job_prefix. intuition.
Qed.

Lemma collect_into_nodup (l : list (Job Array Coord)) (acc : list (string * Image)) :
  NoDup (map fst acc) -> NoDup (map fst (collect_into acc l)).
Proof.
  revert acc. induction l as [|j l IH]; intros acc Hnd; cbn [fold_left].
  - assumption.
  - apply IH. cbn [visualize_field]. now apply dict_set_keys_nodup.
Qed.

Lemma collect_into_length (l : list (Job Array Coord)) (acc : list (string * Image)) :
  (List.length (collect_into acc l) <= List.length acc + List.length l)%nat.
Proof.
  revert acc. induction l as [|j l IH]; intros acc; cbn [fold_left List.length].
  - lia.
  - specialize (IH (let (token, image) := visualize_field Array Coord Image draw j in
                    dict_set acc (result_prefix token) image)).
    cbn [visualize_field] in *.
    pose proof (dict_set_length_le _ acc (result_prefix (job_tag _ _ j)) (draw j)).
    lia.
Qed.

Lemma collect_into_untouched (l : list (Job Array Coord))
    (acc : list (string * Image)) (k : string) :
  ~ In k (map job_prefix l) ->
  dict_get (collect_into acc l) k = dict_get acc k.
Proof.
  revert acc. induction l as [|j l IH]; intros acc Hk; cbn [fold_left].
  - reflexivity.
  - cbn [map In] in Hk. rewrite IH by tauto.
    cbn [visualize_field]. rewrite dict_get_set.
    destruct (String.eqb_spec (result_prefix (job_tag _ _ j)) k) as [E|N];
      [|reflexivity].
    elim Hk. left. exact E.
Qed.

Lemma collect_nodup (l : list (Job Array Coord)) :
  NoDup (map fst (collect l)).
Proof. unfold Visualize.collect. apply collect_into_nodup. constructor. Qed.

Lemma collect_in_keys (l : list (Job Array Coord)) (k : string) :
  In k (map fst (collect l)) <-> In k (map job_prefix l).
Proof.
  unfold Visualize.collect. rewrite collect_into_keys. cbn [map In]. tauto.
Qed.

(** X6: whatever the completion order and whatever keys coincide, the keys
    of the collected results are pairwise distinct, they are exactly the
    keys of the jobs, and there are at most as many entries as jobs. *)
Theorem collect_keys (completed : list (Job Array Coord)) :
  NoDup (map fst (collect completed))
  /\ (forall k, In k (map fst (collect completed))
                <-> In k (map job_prefix completed))
  /\ (List.length (collect completed) <= List.length completed)%nat.
Proof.
  split; [apply collect_nodup|]. split; [apply collect_in_keys|].
  pose proof (collect_into_length completed []) as H. cbn in H. exact H.
Qed.

(** X7: the last job to complete wins its key: the entry filed under the
    key of a job is the image of that job when no job completing after it
    has the same key. *)
Theorem collect_last_completed_wins
    (before after : list (Job Array Coord)) (j : Job Array Coord) :
  ~ In (job_prefix j) (map job_prefix after) ->
  dict_get (collect (before ++ j :: after)) (job_prefix j) = Some (draw j).
Proof.
  intros Hlast. unfold Visualize.collect.
  rewrite fold_left_app. cbn [fold_left].
  rewrite collect_into_untouched by assumption.
  cbn [visualize_field]. rewrite dict_get_set.
  unfold Visualize.job_prefix. now rewrite String.eqb_refl.
Qed.

(** X8: the sequence of keys in which the frames are taken is in strictly
    ascending order and does not depend on the completion order, also when
    keys coincide. *)
Theorem frame_keys_independent_of_completion
    (completed requests : list (Job Array Coord)) :
  Permutation completed requests ->
  StronglySorted item_lt (sorted_items (collect completed))
  /\ map fst (sorted_items (collect completed))
     = map fst (sorted_items (collect requests)).
Proof.
  intros Hp.
  assert (Hsorted : forall l, StronglySorted item_lt (sorted_items (collect l))).
  { intros l. apply sorted_strict; [|apply sorted_items_sorted].
    apply (Permutation_NoDup (l := map fst (collect l))).
    - apply Permutation_map. symmetry. apply sorted_items_perm.
    - apply collect_nodup. }
  split; [apply Hsorted|].
  apply sorted_keys_unique.
  - rewrite !sorted_items_perm.
    apply NoDup_Permutation; try apply collect_nodup.
    intros k. rewrite !collect_in_keys.
    split; apply Permutation_in; apply Permutation_map;
      [assumption | now symmetry].
  - apply sorted_keys, Hsorted.
  - apply sorted_keys, Hsorted.
Qed.

(** **** Keys made from names without underscore *)

Lemma finalize_perm (self : Wrapper) (l1 l2 : list (Job Array Coord)) :
  generate_video _ _ self = true ->
  NoDup (map job_prefix l2) -> Permutation l1 l2 ->
  finalize self l1 = finalize self l2.
Proof.
  intros Hgen Hnd Hp.
  assert (Hnd1 : NoDup (map job_prefix l1)).
  { apply (Permutation_NoDup (l := map job_prefix l2));
      [apply Permutation_map; now symmetry | assumption]. }
  unfold Visualize.finalize. rewrite Hgen.
  rewrite (collect_distinct _ _ _ draw l1 Hnd1),
          (collect_distinct _ _ _ draw l2 Hnd).
  rewrite (sorted_items_of_perm _ (map (job_item _ _ _ draw) l1)
             (map (job_item _ _ _ draw) l2)).
  - reflexivity.
  - now rewrite job_item_keys.
  - now apply Permutation_map.
Qed.

Lemma add_all_prefixes (adds : list (string * Array * Array)) (self : Wrapper) :
  map job_prefix (requests _ _ (add_all _ _ self adds))
  = map job_prefix (requests _ _ self)
    ++ flat_map (fun a => map (fun it => (item_name it ++ "_" ++ fst (fst a))%string)
                            (plot_list _ _ self)) adds.
Proof.
  revert self. induction adds as [|a adds IH]; intros self.
  - cbn. now rewrite app_nil_r.
  - rewrite add_all_cons, IH. cbn [flat_map add set_requests requests plot_list].
    rewrite map_app, map_map, <- app_assoc. reflexivity.
Qed.

End Collecting.

Lemma result_prefix_injective (t1 f1 t2 f2 : string) :
  contains "_"%char f1 = false -> contains "_"%char f2 = false ->
  result_prefix (t1, f1) = result_prefix (t2, f2) ->
  f1 = f2 /\ t1 = t2.
Proof.
  unfold result_prefix. revert f2.
  induction f1 as [|c f1 IH]; intros [|c' f2] H1 H2 E; cbn in *.
  - injection E as ->. auto.
  - injection E as <- _. cbn in H2. discriminate.
  - injection E as -> _. cbn in H1. discriminate.
  - injection E as -> E.
    apply Bool.orb_false_iff in H1 as [_ H1].
    apply Bool.orb_false_iff in H2 as [_ H2].
    destruct (IH f2 H1 H2 E) as [-> ->]. auto.
Qed.

Lemma nodup_app {A} (a b : list A) :
  NoDup a -> NoDup b -> (forall x, In x a -> ~ In x b) -> NoDup (a ++ b).
Proof.
  induction a as [|x a IH]; intros Ha Hb Hd; [assumption|].
  inversion Ha as [|? ? Hx Ha']; subst. cbn. constructor.
  - rewrite in_app_iff. intros [H|H]; [contradiction|].
    exact (Hd x (or_introl eq_refl) H).
  - apply IH; try assumption. intros y Hy. apply Hd. now right.
Qed.

Lemma plain_keys_nodup (names tags : list string) :
  NoDup names -> (forall n, In n names -> contains "_"%char n = false) ->
  NoDup tags ->
  NoDup (flat_map (fun tag => map (fun n => (n ++ "_" ++ tag)%string) names) tags).
Proof.
  intros Hn Hplain Ht.
  induction tags as [|tag tags IH]; cbn [flat_map]; [constructor|].
  inversion Ht as [|? ? Htag Ht']; subst.
  apply nodup_app.
  - clear IH Htag Ht Ht'. induction names as [|n names IHn]; [constructor|].
    inversion Hn as [|? ? Hnin Hn']; subst. cbn [map]. constructor.
    + intros Hin. apply in_map_iff in Hin as (n' & E & Hin').
      destruct (result_prefix_injective tag n' tag n) as [En _];
        [apply Hplain; now right | apply Hplain; now left | exact E |].
      subst. contradiction.
    + apply IHn; [assumption|]. intros m Hm. apply Hplain. now right.
  - now apply IH.
  - intros k Hk Hk'.
    apply in_map_iff in Hk as (n & <- & Hn1).
    apply in_flat_map in Hk' as (tag' & Htag' & Hk').
    apply in_map_iff in Hk' as (n' & E & Hn2).
    destruct (result_prefix_injective tag' n' tag n) as [_ Et];
      [now apply Hplain | now apply Hplain | exact E |].
    subst. contradiction.
Qed.

Section PlainNames.

Variables Array Coord Image Frame : Type.
Variable draw : Job Array Coord -> Image.
Variable asarray : Image -> Frame.
Variable transpose_201 : Frame -> Frame.

(** X9: when the field names of the plot list are pairwise distinct and
    contain no underscore, and the tags of the [add] calls are pairwise
    distinct, [finalize] files one entry per job and hands over the same
    output for every completion order. *)
Theorem finalize_deterministic_for_plain_names
    (log : bool) (path prefix : string) (items : list PlotItem)
    (lat lon : option Coord) (scale bias : Array)
    (adds : list (string * Array * Array))
    (completed : list (Job Array Coord)) :
  let self := add_all Array Coord
                (VisualizationWrapper_init Array Coord log path prefix items
                   lat lon scale bias) adds in
  NoDup (map item_name items) ->
  (forall it, In it items -> contains "_"%char (item_name it) = false) ->
  NoDup (map (fun a => fst (fst a)) adds) ->
  Permutation completed (requests _ _ self) ->
  List.length (Visualize.collect Array Coord Image draw completed)
  = (List.length adds * List.length items)%nat
  /\ Visualize.finalize Array Coord Image Frame draw asarray transpose_201
       self completed
     = Visualize.finalize Array Coord Image Frame draw asarray transpose_201
         self (requests _ _ self).
Proof.
  intros self Hnames Hplain Htags Hp.
  assert (Hnd : NoDup (map (Visualize.job_prefix Array Coord) (requests _ _ self))).
  { unfold self. rewrite add_all_prefixes. cbn [requests plot_list
      VisualizationWrapper_init map app].
    pose proof (plain_keys_nodup (map item_name items)
                  (map (fun a => fst (fst a)) adds) Hnames) as H.
    rewrite flat_map_concat_map, map_map in H.
    rewrite flat_map_concat_map.
    erewrite map_ext; [apply H; try assumption|].
    - intros n Hn. apply in_map_iff in Hn as (it & <- & Hit). now apply Hplain.
    - intros a. cbn. now rewrite map_map. }
  split.
  - rewrite (collect_distinct _ _ _ draw completed).
    + rewrite length_map, (Permutation_length Hp). unfold self.
      now rewrite add_all_requests_length.
    + apply (Permutation_NoDup (l := map (Visualize.job_prefix Array Coord)
                                      (requests _ _ self)));
        [apply Permutation_map; now symmetry | assumption].
  - apply finalize_perm; try assumption.
    unfold self. now rewrite add_all_generate_video.
Qed.

(** X10: [finalize] empties the queue and keeps the configuration: an
    [add] after it enqueues exactly one job per plot item, all carrying the
    new tag, and nothing of the earlier rounds. *)
Theorem add_after_finalize (self : VisualizationWrapper Array Coord)
    (completed : list (Job Array Coord)) (tag : string) (p t : Array) :
  let after := snd (Visualize.finalize Array Coord Image Frame draw asarray
                      transpose_201 self completed) in
  requests _ _ after = []
  /\ requests _ _ (add _ _ after tag p t)
     = map (submit _ _ self tag p t) (plot_list _ _ self)
  /\ map (fun j => fst (job_tag _ _ j)) (requests _ _ (add _ _ after tag p t))
     = repeat tag (List.length (plot_list _ _ self)).
Proof.
  cbv zeta. cbn [Visualize.finalize snd reset set_requests requests add
                 plot_list app]. repeat split.
  induction (plot_list _ _ self) as [|it l IH]; [reflexivity|].
  cbn [map List.length repeat]. rewrite <- IH. reflexivity.
Qed.

End PlainNames.

(** **** plot_rollout_metrics *)

Lemma arange_length (start stop : Z) :
  List.length (arange start stop) = Z.to_nat (stop - start).
Proof. unfold arange. now rewrite length_map, length_seq. Qed.

Lemma arange_from_zero (n : nat) :
  arange 0 (Z.of_nat n + 1) = 0%Z :: arange 1 (Z.of_nat n + 1).
Proof.
  unfold arange.
  replace (Z.to_nat (Z.of_nat n + 1 - 0)) with (S n) by lia.
  replace (Z.to_nat (Z.of_nat n + 1 - 1)) with n by lia.
  cbn [seq map]. f_equal.
  rewrite <- seq_shift, map_map. apply map_ext. intros i. lia.
Qed.

Section MetricsFacts.

Variable Value : Type.
Variable path_join : string -> string -> string.

Abbreviation one := (plot_one_metric Value path_join).
Abbreviation from := (plot_metrics_from Value path_join).
Abbreviation file := (metric_file path_join).

Abbreviation files_of := (Visualize.files_of path_join).

Lemma saved_files_app (a b : list (PlotCall Value)) :
  saved_files Value (a ++ b) = saved_files Value a ++ saved_files Value b.
Proof. unfold saved_files. now rewrite flat_map_app. Qed.

Lemma figures_app (a b : list (PlotCall Value)) :
  figures Value (a ++ b) = (figures Value a + figures Value b)%nat.
Proof. unfold figures. now rewrite filter_app, length_app. Qed.

Lemma plotted_app (a b : list (PlotCall Value)) :
  plotted Value (a ++ b) = plotted Value a ++ plotted Value b.
Proof. unfold plotted. now rewrite flat_map_app. Qed.

Lemma x_ticks_app (a b : list (PlotCall Value)) :
  x_ticks Value (a ++ b) = x_ticks Value a ++ x_ticks Value b.
Proof. unfold x_ticks. now rewrite flat_map_app. Qed.

Lemma one_saved (curve : list Value) (v : string) (sp : option string)
    (fp : string) (d : Z) :
  saved_files Value (one curve v sp fp d) = files_of sp fp [v]
  /\ figures Value (one curve v sp fp d) = 1%nat.
Proof.
  unfold plot_one_metric, Visualize.files_of. destruct sp; split; reflexivity.
Qed.

Lemma one_axes (curve : list Value) (v : string) (sp : option string)
    (fp : string) (d : Z) :
  exists t,
    plotted Value (one curve v sp fp d) = [(t, curve)]
    /\ x_ticks Value (one curve v sp fp d) = [0%Z :: t]
    /\ List.length t = List.length curve.
Proof.
  exists (times d (arange 1 (Z.of_nat (List.length curve) + 1))).
  unfold plot_one_metric. rewrite arange_from_zero.
  destruct sp; cbn; (split; [reflexivity|]); (split; [reflexivity|]);
    unfold times; rewrite length_map, arange_length; lia.
Qed.

Lemma files_of_app (sp : option string) (fp : string) (a b : list string) :
  files_of sp fp (a ++ b) = files_of sp fp a ++ files_of sp fp b.
Proof. unfold Visualize.files_of. destruct sp; [apply map_app | reflexivity]. Qed.

(** The loop from index [ivar] on, when enough curves are left. *)
Lemma from_enough (curves : list (list Value)) (names : list string)
    (sp : option string) (fp : string) (d : Z)
    (ivar : nat) (done : list (PlotCall Value)) :
  (ivar + List.length names <= List.length curves)%nat ->
  let run := from ivar curves names sp fp d done in
  snd run = false
  /\ saved_files Value (fst run) = saved_files Value done ++ files_of sp fp names
  /\ figures Value (fst run) = (figures Value done + List.length names)%nat.
Proof.
  revert ivar done. induction names as [|v names IH]; intros ivar done Hlen.
  - cbn. unfold Visualize.files_of. destruct sp; rewrite ?app_nil_r; auto.
  - cbn [plot_metrics_from]. cbn [List.length] in Hlen.
    destruct (nth_error curves ivar) as [curve|] eqn:Hc.
    + destruct (IH (S ivar) (done ++ one curve v sp fp d)) as (H1 & H2 & H3);
        [lia|].
      destruct (one_saved curve v sp fp d) as [Hs Hf].
      cbv zeta. rewrite H1, H2, H3, saved_files_app, figures_app, Hs, Hf.
      change (v :: names) with ([v] ++ names).
      rewrite files_of_app, <- app_assoc. cbn [List.length app]. repeat split. lia.
    + apply nth_error_None in Hc. lia.
Qed.

(** The loop from index [ivar] on, when the curves run out. *)
Lemma from_short (curves : list (list Value)) (names : list string)
    (sp : option string) (fp : string) (d : Z)
    (ivar : nat) (done : list (PlotCall Value)) :
  (ivar <= List.length curves < ivar + List.length names)%nat ->
  let run := from ivar curves names sp fp d done in
  snd run = true
  /\ saved_files Value (fst run)
     = saved_files Value done
       ++ files_of sp fp (firstn (List.length curves - ivar) names)
  /\ figures Value (fst run)
     = (figures Value done + (List.length curves - ivar))%nat.
Proof.
  revert ivar done. induction names as [|v names IH]; intros ivar done Hlen.
  - cbn in Hlen. lia.
  - cbn [plot_metrics_from]. cbn [List.length] in Hlen.
    destruct (nth_error curves ivar) as [curve|] eqn:Hc.
    + assert (Hi : (ivar < List.length curves)%nat)
        by (apply nth_error_Some; congruence).
      destruct (IH (S ivar) (done ++ one curve v sp fp d)) as (H1 & H2 & H3);
        [lia|].
      destruct (one_saved curve v sp fp d) as [Hs Hf].
      cbv zeta. rewrite H1, H2, H3, saved_files_app, figures_app, Hs, Hf.
      replace (List.length curves - ivar)%nat
        with (S (List.length curves - S ivar)) by lia.
      cbn [firstn]. change (v :: firstn (List.length curves - S ivar) names)
        with ([v] ++ firstn (List.length curves - S ivar) names).
      rewrite files_of_app, <- app_assoc. repeat split. lia.
    + apply nth_error_None in Hc.
      replace (List.length curves - ivar)%nat with 0%nat by lia.
      cbn. unfold Visualize.files_of. destruct sp; rewrite ?app_nil_r; auto.
Qed.

Lemma from_axes (curves : list (list Value)) (names : list string)
    (sp : option string) (fp : string) (d : Z)
    (ivar : nat) (done : list (PlotCall Value)) :
  x_ticks Value done = map (fun tc => 0%Z :: fst tc) (plotted Value done) ->
  Forall (fun tc => List.length (fst tc) = List.length (snd tc))
    (plotted Value done) ->
  let run := from ivar curves names sp fp d done in
  x_ticks Value (fst run) = map (fun tc => 0%Z :: fst tc) (plotted Value (fst run))
  /\ Forall (fun tc => List.length (fst tc) = List.length (snd tc))
       (plotted Value (fst run)).
Proof.
  revert ivar done. induction names as [|v names IH]; intros ivar done Ht Hl.
  - cbn. auto.
  - cbn [plot_metrics_from].
    destruct (nth_error curves ivar) as [curve|]; [|cbn; auto].
    apply IH.
    + destruct (one_axes curve v sp fp d) as (t & Hp & Hx & _).
      rewrite x_ticks_app, plotted_app, map_app, Ht, Hp, Hx. reflexivity.
    + destruct (one_axes curve v sp fp d) as (t & Hp & _ & Hlen).
      rewrite plotted_app, Hp. apply Forall_app. split; [assumption|].
      constructor; [exact Hlen | constructor].
Qed.

(** X11: with at least as many curves as variable names the function
    returns; it opens one figure per name, ignores the curves beyond the
    names, and writes one file per name, in the order of the names, when a
    score path is given and none otherwise. *)
Theorem plot_rollout_metrics_files (curves : list (list Value))
    (names : list string) (sp : option string) (fp : string) (d : Z) :
  (List.length names <= List.length curves)%nat ->
  let run := plot_rollout_metrics Value path_join curves names sp fp d in
  snd run = false
  /\ figures Value (fst run) = List.length names
  /\ saved_files Value (fst run)
     = match sp with
       | Some dir => map (file dir fp) names
       | None => []
       end.
Proof.
  intros Hlen. destruct (from_enough curves names sp fp d 0 []) as (H1 & H2 & H3);
    [cbn; lia|].
  unfold plot_rollout_metrics. cbv zeta. rewrite H1, H2, H3. repeat split.
Qed.

(** X12: with fewer curves than variable names the function raises
    [IndexError], after it has drawn, and with a score path written, the
    figures of the names that have a curve. *)
Theorem plot_rollout_metrics_missing_curve (curves : list (list Value))
    (names : list string) (sp : option string) (fp : string) (d : Z) :
  (List.length curves < List.length names)%nat ->
  let run := plot_rollout_metrics Value path_join curves names sp fp d in
  snd run = true
  /\ figures Value (fst run) = List.length curves
  /\ saved_files Value (fst run)
     = match sp with
       | Some dir => map (file dir fp) (firstn (List.length curves) names)
       | None => []
       end.
Proof.
  intros Hlen. destruct (from_short curves names sp fp d 0 []) as (H1 & H2 & H3);
    [cbn; lia|].
  unfold plot_rollout_metrics. cbv zeta. rewrite H1, H2, H3, Nat.sub_0_r.
  repeat split.
Qed.

(** X13: in every figure the time axis has as many points as the curve,
    and the major ticks are the position 0 followed by the time of every
    point. *)
Theorem plot_rollout_metrics_axes (curves : list (list Value))
    (names : list string) (sp : option string) (fp : string) (d : Z) :
  let run := plot_rollout_metrics Value path_join curves names sp fp d in
  x_ticks Value (fst run) = map (fun tc => 0%Z :: fst tc) (plotted Value (fst run))
  /\ Forall (fun tc => List.length (fst tc) = List.length (snd tc))
       (plotted Value (fst run)).
Proof.
  unfold plot_rollout_metrics. apply from_axes; [reflexivity | constructor].
Qed.

End MetricsFacts.

(** Runs on the example wrappers. *)

Lemma collect_last_completed_wins_witness :
  dict_get (Visualize.collect nat unit _ ex_draw
              (rev (requests _ _ ex_colliding))) "a_b_c"
  = Some (("b_c", "a"), 1%nat).
Proof.
  apply (collect_last_completed_wins nat unit _ ex_draw
           [submit nat unit (ex_wrapper ["a"; "a_b"]) "c" 2%nat 2%nat (ex_item "a_b");
            submit nat unit (ex_wrapper ["a"; "a_b"]) "c" 2%nat 2%nat (ex_item "a");
            submit nat unit (ex_wrapper ["a"; "a_b"]) "b_c" 1%nat 1%nat (ex_item "a_b")]
           []
           (submit nat unit (ex_wrapper ["a"; "a_b"]) "b_c" 1%nat 1%nat (ex_item "a"))).
  cbn. tauto.
Defined.

Lemma frame_keys_independent_of_completion_witness :
  map fst (sorted_items (Visualize.collect nat unit _ ex_draw
                           (rev (requests _ _ ex_colliding))))
  = ["a_b_b_c"; "a_b_c"; "a_c"].
Proof.
  destruct (frame_keys_independent_of_completion nat unit _ ex_draw
              (rev (requests _ _ ex_colliding)) (requests _ _ ex_colliding))
    as [_ H].
  - symmetry. apply Permutation_rev.
  - rewrite H. reflexivity.
Defined.

Lemma finalize_deterministic_for_plain_names_witness :
  Visualize.finalize nat unit _ _ ex_draw (fun i => i) (fun f => f)
    ex_distinct (rev (requests _ _ ex_distinct))
  = Visualize.finalize nat unit _ _ ex_draw (fun i => i) (fun f => f)
      ex_distinct (requests _ _ ex_distinct).
Proof.
  apply (finalize_deterministic_for_plain_names nat unit _ _ ex_draw
           (fun i => i) (fun f => f) false "out" "viz"
           (map ex_item ["u10m"; "t2m"]) None None 1%nat 0%nat
           [("000", 1%nat, 1%nat); ("001", 2%nat, 2%nat)]
           (rev (requests _ _ ex_distinct))).
  - cbn. repeat constructor; cbn; intuition discriminate.
  - cbn. intros it [<-|[<-|[]]]; reflexivity.
  - cbn. repeat constructor; cbn; intuition discriminate.
  - symmetry. apply Permutation_rev.
Defined.

Lemma plot_rollout_metrics_files_witness :
  saved_files nat
    (fst (plot_rollout_metrics nat ex_path_join
            [[1; 2; 3]; [4; 5; 6]; [7; 8; 9]]%nat ["u10m"; "t2m"]
            (Some "scores") "rmse" 6))
  = ["scores/rmse_u10m.png"; "scores/rmse_t2m.png"].
Proof.
  destruct (plot_rollout_metrics_files nat ex_path_join
              [[1; 2; 3]; [4; 5; 6]; [7; 8; 9]]%nat ["u10m"; "t2m"]
              (Some "scores") "rmse" 6) as (_ & _ & H).
  - cbn. lia.
  - rewrite H. reflexivity.
Defined.

Lemma plot_rollout_metrics_missing_curve_witness :
  snd (plot_rollout_metrics nat ex_path_join
         [[1; 2; 3]]%nat ["u10m"; "t2m"] (Some "scores") "rmse" 6) = true.
Proof.
  apply (plot_rollout_metrics_missing_curve nat ex_path_join
           [[1; 2; 3]]%nat ["u10m"; "t2m"] (Some "scores") "rmse" 6).
  cbn. lia.
Defined.

End VisualizeMore.

(** ** Spectral operators: further properties *)

Module SpectralMore.

Import String QArith Reals Lra Spectral SpectralFacts.
Local Open Scope string_scope.
Local Open Scope list_scope.
Local Open Scope Z_scope.

Lemma operand_index_last (pre : list Z) (l L : Z) :
  0 <= l < L -> operand_index [L] (pre ++ [l]) = [l].
Proof.
  intros Hl. unfold operand_index. rewrite length_app. cbn [List.length].
  replace (List.length pre + 1 - 1)%nat with (List.length pre) by lia.
  rewrite skipn_app, skipn_all, Nat.sub_diag. cbn [skipn app zip_index].
  destruct (Z.eqb_spec L 1); [f_equal; lia | reflexivity].
Qed.

Lemma in_bounds_app_inv (pre ws : list Z) (l L : Z) :
  in_bounds (pre ++ [l]) (ws ++ [L]) -> in_bounds pre ws /\ 0 <= l < L.
Proof.
  intros H. destruct (in_bounds_last _ _ _ _ H) as [Hlen Hl].
  split; [|assumption].
  unfold in_bounds in *.
  apply Forall2_app_inv_l in H as (s1 & s2 & H1 & H2 & E).
  inversion H2 as [|? d ? ? Hb Hnil]; subst. inversion Hnil; subst.
  apply app_inj_tail in E as [-> _]. exact H1.
Qed.

Lemma init_radicand_ok (gain : Q) (in_channels num_groups : Z) (q : Q) :
  init_radicand gain in_channels num_groups = inr q ->
  in_channels / num_groups <> 0
  /\ q = (gain / inject_Z (in_channels / num_groups))%Q
  /\ (0 <= q)%Q.
Proof.
  unfold init_radicand.
  destruct (Z.eqb_spec (in_channels / num_groups) 0) as [E|N]; [discriminate|].
  destruct (Qle_bool 0 (gain / inject_Z (in_channels / num_groups))) eqn:Hq;
    [|discriminate].
  intros [= <-]. repeat split; [assumption|]. now apply Qle_bool_iff.
Qed.

Section OperatorMore.

Variables Tensor DType : Type.
Variable float32 : DType.
Variable dtype_of : Tensor -> DType.
Variable to_dtype : Tensor -> DType -> Tensor.
Variable contiguous : Tensor -> Tensor.
Variable shape_of : Tensor -> list Z.
Variable reshape : Tensor -> list Z -> result Tensor.
Variable add_bias : Tensor -> NDArray -> Tensor.
Variables rank_h rank_w : nat.
Variable get_contract_fun : NDArray -> bool -> string -> result (ContractFun Tensor).
Variable forward_mlp : SpectralAttention Tensor -> Tensor -> result Tensor.

Abbreviation conv_init := (SpectralConv_init Tensor rank_h rank_w get_contract_fun).
Abbreviation conv_forward :=
  (SpectralConv_forward Tensor DType float32 dtype_of to_dtype contiguous
     shape_of reshape add_bias).
Abbreviation attention_forward :=
  (SpectralAttention_forward Tensor DType float32 dtype_of to_dtype forward_mlp).

(** Everything a returning constructor has checked and stored. *)
Lemma SpectralConv_init_inv (noise : list Z -> C) (fwd inv : Transform Tensor)
    (in_channels out_channels num_groups : Z) (op : string)
    (sep b : bool) (gain : Q) (self : SpectralConv Tensor) :
  conv_init noise fwd inv in_channels out_channels num_groups op sep b gain
  = inr self ->
  num_groups <> 0
  /\ in_channels mod num_groups = 0
  /\ out_channels mod num_groups = 0
  /\ exists ws,
       extend_weight_shape op
         (base_shape in_channels out_channels num_groups sep)
         (modes_lat_local _ self) (modes_lon_local _ self) = inr ws
       /\ init_weight noise gain in_channels num_groups
            (modes_lat_local _ self) ws = inr (weight _ self)
       /\ weight_sharded_dims_mp _ self = snd (sharded_dims op ws)
       /\ weight_is_shared_mp _ self = fst (sharded_dims op ws)
       /\ init_bias b out_channels = inr (bias _ self)
       /\ modes_lat _ self = t_lmax _ inv
       /\ modes_lon _ self = t_mmax _ inv.
Proof.
  unfold SpectralConv_init. intros H.
  apply and_then_ok in H as (c1 & Hc1 & H).
  apply and_then_ok in H as (u1 & Hu1 & H).
  apply and_then_ok in H as (c2 & Hc2 & H).
  apply and_then_ok in H as (u2 & Hu2 & H).
  apply and_then_ok in H as (sr & Hsr & H).
  apply and_then_ok in H as (u3 & _ & H).
  apply and_then_ok in H as (u4 & _ & H).
  apply and_then_ok in H as ([[[L M] la] lo] & Hloc & H).
  apply and_then_ok in H as (ws & Hws & H).
  apply and_then_ok in H as (w & Hw & H).
  apply and_then_ok in H as (contract & _ & H).
  apply and_then_ok in H as (bs & Hb & H).
  injection H as <-. cbn.
  apply mod_is_zero_ok in Hc1 as [HG ->]. apply assert_ok in Hu1.
  apply mod_is_zero_ok in Hc2 as [_ ->]. apply assert_ok in Hu2.
  apply Z.eqb_eq in Hu1, Hu2.
  repeat split; try assumption.
  exists ws. repeat split; assumption.
Qed.

(** X14: what a returning constructor of the Mode-Mixing Operator implies
    about its arguments: [num_groups] is not zero and divides both channel
    counts, [in_channels] is not zero, the quotient of the gain by the input
    channels per group is not negative, there is at least one local
    latitudinal mode, the operator type is one of the two supported ones,
    and with a bias [out_channels] is not negative. *)
Theorem SpectralConv_init_requirements (noise : list Z -> C)
    (fwd inv : Transform Tensor)
    (in_channels out_channels num_groups : Z) (op : string)
    (sep b : bool) (gain : Q) (self : SpectralConv Tensor) :
  conv_init noise fwd inv in_channels out_channels num_groups op sep b gain
  = inr self ->
  num_groups <> 0
  /\ (num_groups | in_channels) /\ (num_groups | out_channels)
  /\ in_channels <> 0
  /\ (0 <= gain / inject_Z (in_channels / num_groups))%Q
  /\ 0 < modes_lat_local _ self
  /\ (op = "diagonal" \/ op = "dhconv")
  /\ (b = true -> 0 <= out_channels).
Proof.
  intros H.
  apply SpectralConv_init_inv in H
    as (HG & Hin & Hout & ws & Hws & Hw & _ & _ & Hb & _).
  apply init_weight_ok in Hw as (q & s & scale & Hq & HL & _).
  apply init_radicand_ok in Hq as (Hd & -> & Hq).
  split; [assumption|].
  split; [now apply Z.mod_divide|]. split; [now apply Z.mod_divide|].
  split; [intros ->; now rewrite Z.div_0_l in Hd|].
  split; [assumption|]. split; [assumption|]. split.
  - unfold extend_weight_shape in Hws.
    destruct (String.eqb_spec op "diagonal"); [now left|].
    destruct (String.eqb_spec op "dhconv"); [now right | discriminate].
  - intros ->. unfold init_bias in Hb.
    destruct (Z.ltb_spec out_channels 0); [discriminate | assumption].
Qed.

(** X15: a Mode-Mixing Operator constructed with operator type [dhconv]
    has a weight whose last axis is the local latitudinal mode; the entry
    of mode [l] is the random draw times the scale of that mode, the scale
    of mode 0 carries the factor [sqrt 2], and its squared modulus is twice
    that of every other mode. *)
Theorem dhconv_constructed_weight (noise : list Z -> C)
    (fwd inv : Transform Tensor)
    (in_channels out_channels num_groups : Z)
    (sep b : bool) (gain : Q) (self : SpectralConv Tensor) :
  conv_init noise fwd inv in_channels out_channels num_groups "dhconv" sep b gain
  = inr self ->
  let L := modes_lat_local _ self in
  let base := base_shape in_channels out_channels num_groups sep in
  nd_shape (weight _ self) = base ++ [L]
  /\ exists q,
       init_radicand gain in_channels num_groups = inr q
       /\ forall pre l,
            in_bounds (pre ++ [l]) (base ++ [L]) ->
            nd_at (weight _ self) (pre ++ [l])
            = Cmul (scale_entry q l) (noise (pre ++ [l]))
            /\ (l <> 0 ->
                Cnorm2 (scale_entry q 0) = (2 * Cnorm2 (scale_entry q l))%R).
Proof.
  intros H L base.
  apply SpectralConv_init_inv in H as (_ & _ & _ & ws & Hws & Hw & _).
  cbn in Hws. injection Hws as <-.
  fold base in Hw. fold L in Hw.
  apply init_weight_ok in Hw as (q & s & scale & Hq & HL & Hs & Hshape & Hsc & Hat).
  rewrite broadcast_dhconv in Hs. injection Hs as <-.
  split; [assumption|]. exists q. split; [assumption|].
  intros pre l Hb. split; [|apply scale_entry_variance].
  destruct (in_bounds_last _ _ _ _ Hb) as [_ Hl].
  now rewrite Hat, (operand_index_full _ _ Hb), (operand_index_last _ _ _ Hl), Hsc.
Qed.

Lemma zip_index_app (s1 s2 i1 i2 : list Z) :
  List.length i1 = List.length s1 ->
  zip_index (s1 ++ s2) (i1 ++ i2) = zip_index s1 i1 ++ zip_index s2 i2.
Proof.
  revert i1. induction s1 as [|d s1 IH]; intros [|i i1] Hlen;
    try discriminate; [reflexivity|].
  cbn [app zip_index]. rewrite IH by (cbn in Hlen; lia). reflexivity.
Qed.

(** X16: a Mode-Mixing Operator constructed with operator type [diagonal]
    and more than one local latitudinal mode has equal mode counts or a
    single longitudinal mode; its weight ends in the axes [L; L], and the
    scale of an entry is the one of its last, longitudinal, index: the
    factor [sqrt 2] sits on longitudinal index 0 for every latitudinal
    mode. *)
Theorem diagonal_constructed_weight (noise : list Z -> C)
    (fwd inv : Transform Tensor)
    (in_channels out_channels num_groups : Z)
    (sep b : bool) (gain : Q) (self : SpectralConv Tensor) :
  conv_init noise fwd inv in_channels out_channels num_groups "diagonal" sep b
    gain = inr self ->
  let L := modes_lat_local _ self in
  let M := modes_lon_local _ self in
  let base := base_shape in_channels out_channels num_groups sep in
  L <> 1 ->
  (L = M \/ M = 1)
  /\ nd_shape (weight _ self) = base ++ [L; L]
  /\ exists q,
       init_radicand gain in_channels num_groups = inr q
       /\ forall pre l m,
            in_bounds (pre ++ [l; m]) (base ++ [L; L]) ->
            nd_at (weight _ self) (pre ++ [l; m])
            = Cmul (scale_entry q m)
                   (noise (pre ++ [l; if M =? 1 then 0 else m])).
Proof.
  intros H L M base HL1.
  apply SpectralConv_init_inv in H as (_ & _ & _ & ws & Hws & Hw & _).
  cbn in Hws. injection Hws as <-.
  fold base in Hw. fold L in Hw. fold M in Hw.
  apply init_weight_ok in Hw as (q & s & scale & Hq & HL & Hs & Hshape & Hsc & Hat).
  rewrite broadcast_diagonal in Hs.
  assert (HLM : L = M \/ M = 1).
  { destruct (Z.eqb_spec L M); [now left|].
    destruct (Z.eqb_spec L 1); [contradiction|].
    destruct (Z.eqb_spec M 1); [now right | discriminate]. }
  assert (Es : s = base ++ [L; L]).
  { destruct (Z.eqb_spec L M); [congruence|].
    destruct (Z.eqb_spec L 1); [contradiction|].
    destruct (Z.eqb_spec M 1); congruence. }
  split; [assumption|]. split; [congruence|].
  exists q. split; [assumption|].
  intros pre l m Hb. rewrite Hat.
  change (pre ++ [l; m]) with (pre ++ [l] ++ [m]) in *.
  change (base ++ [L; L]) with (base ++ [L] ++ [L]) in Hb.
  rewrite !app_assoc in Hb.
  destruct (in_bounds_app_inv _ _ _ _ Hb) as [Hb' Hm].
  destruct (in_bounds_app_inv _ _ _ _ Hb') as [Hpre Hl].
  rewrite app_assoc, (operand_index_last _ _ _ Hm), Hsc. f_equal. f_equal.
  unfold operand_index.
  change (base ++ [L; M]) with (base ++ [L; M]).
  rewrite <- app_assoc.
  assert (Hlen : List.length pre = List.length base)
    by (now apply in_bounds_length).
  rewrite !length_app, Hlen. cbn [List.length].
  rewrite Nat.sub_diag. cbn [skipn].
  rewrite zip_index_app by assumption.
  rewrite (zip_index_in_bounds _ _ Hpre). cbn [zip_index app].
  destruct (Z.eqb_spec L 1); [contradiction | reflexivity].
Qed.

(** X17: the sharding labels of a constructed Mode-Mixing Operator: there
    is one label per axis of the weight; the last axis is labelled ["h"] for
    [dhconv], the last two axes ["h"] and ["w"] for [diagonal], and all other
    axes are unlabelled. *)
Theorem constructed_weight_labels (noise : list Z -> C)
    (fwd inv : Transform Tensor)
    (in_channels out_channels num_groups : Z) (op : string)
    (sep b : bool) (gain : Q) (self : SpectralConv Tensor) :
  conv_init noise fwd inv in_channels out_channels num_groups op sep b gain
  = inr self ->
  let base := base_shape in_channels out_channels num_groups sep in
  List.length (weight_sharded_dims_mp _ self)
  = List.length (nd_shape (weight _ self))
  /\ (op = "dhconv" ->
      weight_sharded_dims_mp _ self
      = repeat None (List.length base) ++ [Some "h"]
      /\ weight_is_shared_mp _ self = ["matmul"; "w"])
  /\ (op = "diagonal" ->
      weight_sharded_dims_mp _ self
      = repeat None (List.length base) ++ [Some "h"; Some "w"]
      /\ weight_is_shared_mp _ self = ["matmul"]).
Proof.
  intros H base.
  apply SpectralConv_init_inv in H
    as (_ & _ & _ & ws & Hws & Hw & Hlab & Hsh & _).
  fold base in Hws.
  apply init_weight_ok in Hw as (q & s & scale & _ & _ & Hs & Hshape & _).
  unfold extend_weight_shape in Hws. unfold sharded_dims in Hlab, Hsh.
  destruct (String.eqb_spec op "diagonal") as [->|Nd].
  - injection Hws as <-. cbn [String.eqb Ascii.eqb Bool.eqb] in Hlab, Hsh.
    cbn [fst snd] in Hlab, Hsh. rewrite length_app in Hlab. cbn [List.length] in Hlab.
    replace (List.length base + 2 - 2)%nat with (List.length base) in Hlab by lia.
    rewrite broadcast_diagonal in Hs.
    assert (Hlen : List.length s = (List.length base + 2)%nat).
    { repeat match type of Hs with
             | context [if ?c then _ else _] => destruct c
             end; try discriminate; injection Hs as <-;
        rewrite length_app; reflexivity. }
    split; [|split].
    + rewrite Hlab, Hshape, Hlen, length_app, repeat_length. reflexivity.
    + discriminate.
    + intros _. split; assumption.
  - destruct (String.eqb_spec op "dhconv") as [->|Nh]; [|discriminate].
    injection Hws as <-. cbn [String.eqb Ascii.eqb Bool.eqb] in Hlab, Hsh.
    cbn [fst snd] in Hlab, Hsh. rewrite length_app in Hlab. cbn [List.length] in Hlab.
    replace (List.length base + 1 - 1)%nat with (List.length base) in Hlab by lia.
    rewrite broadcast_dhconv in Hs. injection Hs as <-.
    split; [|split].
    + rewrite Hlab, Hshape, !length_app, repeat_length. reflexivity.
    + intros _. split; assumption.
    + discriminate.
Qed.

(** X18: the constructor of the Spectral Attention Operator never returns
    an object.  When the grid comparison and the two mode assertions pass,
    it raises [NameError] for the operator types [diagonal] and
    [l-dependant], whose branches read names the module never binds, and
    [ValueError] for every other operator type. *)
Theorem SpectralAttention_init_never_returns
    (fwd inv : Transform Tensor) (in_channels out_channels : Z) (op : string)
    (hidden_size_factor : Q) (complex_activation : string) (b : bool)
    (spectral_layers : Z) (drop_rate gain : Q) :
  let run := SpectralAttention_init Tensor fwd inv in_channels out_channels op
               hidden_size_factor complex_activation b spectral_layers
               drop_rate gain in
  (exists e, run = inl e)
  /\ (forall flag,
        attention_scale_residual Tensor fwd inv = inr flag ->
        t_lmax _ inv = t_lmax _ fwd -> t_mmax _ inv = t_mmax _ fwd ->
        run = inl (if String.eqb op "diagonal" then NameError
                   else if String.eqb op "l-dependant" then NameError
                   else ValueError)).
Proof.
  cbv zeta. split; [apply SpectralAttention_init_raises|].
  intros flag Hsr Hl Hm. unfold SpectralAttention_init.
  rewrite Hsr, Hl, Hm, !Z.eqb_refl. cbn [and_then assert ok].
  destruct (String.eqb op "diagonal"); [reflexivity|].
  destruct (String.eqb op "l-dependant"); reflexivity.
Qed.

(** **** Exceptions in [forward] *)

Lemma unpack4_raises (s : list Z) :
  List.length s <> 4%nat -> unpack4 s = inl ValueError.
Proof.
  destruct s as [|a [|b [|c [|d [|e s]]]]]; cbn; intros H;
    try reflexivity; now elim H.
Qed.

(** X19: [forward] of the Mode-Mixing Operator catches nothing: an
    exception of the forward transform, or of the inverse transform while
    the residual is computed, leaves [forward] unchanged; and a spectral
    tensor that is not of rank 4 raises [ValueError] before any
    contraction. *)
Theorem SpectralConv_forward_raises (self : SpectralConv Tensor) (x : Tensor) :
  (forall e,
     t_call _ (forward_transform _ self) (to_dtype x float32) = inl e ->
     conv_forward self x = inl e)
  /\ (forall xs e,
        t_call _ (forward_transform _ self) (to_dtype x float32) = inr xs ->
        scale_residual _ self = true ->
        t_call _ (inverse_transform _ self) (contiguous xs) = inl e ->
        conv_forward self x = inl e)
  /\ (forall xs,
        t_call _ (forward_transform _ self) (to_dtype x float32) = inr xs ->
        (scale_residual _ self = true ->
         exists r, t_call _ (inverse_transform _ self) (contiguous xs) = inr r) ->
        List.length (shape_of (contiguous xs)) <> 4%nat ->
        conv_forward self x = inl ValueError).
Proof.
  unfold SpectralConv_forward. repeat split.
  - intros e He. now rewrite He.
  - intros xs e Hxs Hsr He. rewrite Hxs. cbn [and_then]. now rewrite Hsr, He.
  - intros xs Hxs Hres Hrank. rewrite Hxs. cbn [and_then].
    destruct (scale_residual _ self).
    + destruct (Hres eq_refl) as [r Hr]. rewrite Hr. cbn [and_then ok].
      now rewrite (unpack4_raises _ Hrank).
    + cbn [and_then ok]. now rewrite (unpack4_raises _ Hrank).
Qed.

(** X20: when casting to a dtype gives a tensor of that dtype, both
    results of [forward], the output and the residual, have the dtype of the
    input, for both operators and whether or not the residual is rescaled. *)
Theorem forward_preserves_dtype (conv : SpectralConv Tensor)
    (att : SpectralAttention Tensor) (x y residual : Tensor) :
  (forall t d, dtype_of (to_dtype t d) = d) ->
  (conv_forward conv x = inr (y, residual) ->
   dtype_of y = dtype_of x /\ dtype_of residual = dtype_of x)
  /\ (attention_forward att x = inr (y, residual) ->
      dtype_of y = dtype_of x /\ dtype_of residual = dtype_of x).
Proof.
  intros Hcast. split.
  - intros H. split.
    + unfold SpectralConv_forward in H.
      apply and_then_ok in H as (xs & _ & H).
      apply and_then_ok in H as (res & _ & H).
      apply and_then_ok in H as ([[[B Ch] Hh] Ww] & _ & H).
      apply and_then_ok in H as (cg & _ & H).
      apply and_then_ok in H as (x1 & _ & H).
      apply and_then_ok in H as (xp & _ & H).
      apply and_then_ok in H as (x2 & _ & H).
      apply and_then_ok in H as (x3 & _ & H).
      injection H as <- _. apply Hcast.
    + apply (conv_forward_residual Tensor DType float32 dtype_of to_dtype
               contiguous shape_of reshape add_bias) in H.
      destruct (scale_residual _ conv).
      * destruct H as (xs & r & _ & _ & ->). apply Hcast.
      * now subst.
  - intros H. split.
    + unfold SpectralAttention_forward in H.
      apply and_then_ok in H as (xs & _ & H).
      apply and_then_ok in H as (res & _ & H).
      apply and_then_ok in H as (x1 & _ & H).
      apply and_then_ok in H as (x2 & _ & H).
      injection H as <- _. apply Hcast.
    + apply (attention_forward_residual Tensor DType float32 dtype_of to_dtype
               forward_mlp) in H.
      destruct (att_scale_residual _ att).
      * destruct H as (xs & r & _ & _ & ->). apply Hcast.
      * now subst.
Qed.

End OperatorMore.

(** Runs on the example operators. *)

Ltac example_constructed E :=
  exfalso; revert E; lazy - [Rmult Rplus Rminus sqrt Q2R IZR]; discriminate.

Ltac example_object E :=
  revert E; lazy - [Rmult Rplus Rminus sqrt Q2R IZR]; intros [= <-].

Lemma SpectralConv_init_requirements_witness :
  exists self,
    ex_conv_init (ex_transform 4 8 3 3 None) (ex_transform 4 8 3 3 None)
      2 4 2 "dhconv" false true 1%Q = inr self
    /\ 0 < modes_lat_local _ self.
Proof.
  destruct (ex_conv_init (ex_transform 4 8 3 3 None) (ex_transform 4 8 3 3 None)
              2 4 2 "dhconv" false true 1%Q) as [e|self] eqn:E;
    [example_constructed E|].
  exists self. split; [reflexivity|].
  apply SpectralConv_init_requirements in E
    as (_ & _ & _ & _ & _ & H & _). exact H.
Defined.

Lemma dhconv_constructed_weight_witness :
  exists self q,
    ex_conv_init (ex_transform 4 8 3 3 None) (ex_transform 4 8 3 3 None)
      1 1 1 "dhconv" false false 1%Q = inr self
    /\ nd_at (weight _ self) [0; 0; 0; 1]
       = Cmul (scale_entry q 1) (ex_noise [0; 0; 0; 1]).
Proof.
  destruct (ex_conv_init (ex_transform 4 8 3 3 None) (ex_transform 4 8 3 3 None)
              1 1 1 "dhconv" false false 1%Q) as [e|self] eqn:E;
    [example_constructed E|].
  pose proof E as E'.
  apply dhconv_constructed_weight in E' as (_ & q & _ & Hent).
  exists self, q. split; [reflexivity|].
  assert (HL : modes_lat_local _ self = 3) by (example_object E; reflexivity).
  apply (Hent [0; 0; 0] 1). rewrite HL.
  repeat constructor; lia.
Defined.

Lemma diagonal_constructed_weight_witness :
  exists self,
    ex_conv_init (ex_transform 4 8 2 2 None) (ex_transform 4 8 2 2 None)
      1 1 1 "diagonal" false false 1%Q = inr self
    /\ nd_shape (weight _ self) = [1; 1; 1; 2; 2].
Proof.
  destruct (ex_conv_init (ex_transform 4 8 2 2 None) (ex_transform 4 8 2 2 None)
              1 1 1 "diagonal" false false 1%Q) as [e|self] eqn:E;
    [example_constructed E|].
  exists self. split; [reflexivity|].
  assert (HL : modes_lat_local _ self = 2) by (example_object E; reflexivity).
  apply diagonal_constructed_weight in E as (_ & Hshape & _).
  - rewrite Hshape, HL. reflexivity.
  - rewrite HL. lia.
Defined.

Lemma constructed_weight_labels_witness :
  exists self,
    ex_conv_init (ex_transform 4 8 3 3 None) (ex_transform 4 8 3 3 None)
      1 1 1 "dhconv" false false 1%Q = inr self
    /\ weight_sharded_dims_mp _ self = [None; None; None; Some "h"].
Proof.
  destruct (ex_conv_init (ex_transform 4 8 3 3 None) (ex_transform 4 8 3 3 None)
              1 1 1 "dhconv" false false 1%Q) as [e|self] eqn:E;
    [example_constructed E|].
  exists self. split; [reflexivity|].
  apply constructed_weight_labels in E as (_ & H & _).
  destruct (H eq_refl) as [H' _]. exact H'.
Defined.

Lemma SpectralAttention_init_never_returns_witness :
  SpectralAttention_init (bool * Z)
    (ex_transform 4 8 3 3 (Some "equiangular"))
    (ex_transform 4 8 3 3 (Some "equiangular"))
    1 1 "diagonal" 2%Q "real" false 1 0%Q 1%Q
  = inl NameError.
Proof.
  apply (proj2 (SpectralAttention_init_never_returns (bool * Z)
                  (ex_transform 4 8 3 3 (Some "equiangular"))
                  (ex_transform 4 8 3 3 (Some "equiangular"))
                  1 1 "diagonal" 2%Q "real" false 1 0%Q 1%Q) false).
  - reflexivity.
  - reflexivity.
  - reflexivity.
Defined.

Lemma SpectralConv_forward_raises_witness :
  exists self,
    ex_conv_init (ex_failing_transform 4 8 3 3 None) (ex_transform 4 8 3 3 None)
      1 1 1 "dhconv" false false 1%Q = inr self
    /\ ex_conv_forward self (false, 5) = inl RuntimeError.
Proof.
  destruct (ex_conv_init (ex_failing_transform 4 8 3 3 None)
              (ex_transform 4 8 3 3 None)
              1 1 1 "dhconv" false false 1%Q) as [e|self] eqn:E;
    [example_constructed E|].
  exists self. split; [reflexivity|].
  apply (proj1 (SpectralConv_forward_raises (bool * Z) bool true fst
                  (fun x d => (d, snd x)) (fun x => x)
                  (fun _ => [1; 1; 2; 2]) (fun x _ => ok x) (fun x _ => x)
                  self (false, 5))).
  assert (Hf : forward_transform _ self = ex_failing_transform 4 8 3 3 None)
    by (example_object E; reflexivity).
  rewrite Hf. reflexivity.
Defined.

Lemma forward_preserves_dtype_witness :
  exists y residual,
    ex_attention_forward
      (ex_attention (ex_transform 4 8 3 3 (Some "equiangular"))
         (ex_transform 2 4 3 3 (Some "equiangular")) true) (false, 5)
    = inr (y, residual)
    /\ fst y = false /\ fst residual = false.
Proof.
  destruct (ex_conv_init (ex_transform 4 8 3 3 None) (ex_transform 4 8 3 3 None)
              1 1 1 "dhconv" false false 1%Q) as [e|conv] eqn:E;
    [example_constructed E|].
  exists (false, 11), (false, 11). split; [reflexivity|].
  apply (proj2 (forward_preserves_dtype (bool * Z) bool true fst
                  (fun x d => (d, snd x)) (fun x => x)
                  (fun _ => [1; 1; 2; 2]) (fun x _ => ok x) (fun x _ => x)
                  (fun _ x => ok x) conv
                  (ex_attention (ex_transform 4 8 3 3 (Some "equiangular"))
                     (ex_transform 2 4 3 3 (Some "equiangular")) true)
                  (false, 5) (false, 11) (false, 11) (fun t d => eq_refl))).
  reflexivity.
Defined.

End SpectralMore.
